(** * Focal loss and class re-weighting

    A shallow embedding of [torcheeg/trainers/imbalance/focal.py]:
    the [FocalLoss] module and the [FocalLossTrainer] that derives class
    frequencies, builds the per-class weight vectors of the rules
    ['none'], ['reweight'] and ['drw'], and swaps the loss unit at the
    deferred re-weighting epoch.

    Numbers.  Python floats and tensor entries are modelled by [xreal]:
    a real number, or one of the three special values of IEEE arithmetic
    (plus infinity, minus infinity, not-a-number).  Finite results are
    exact (no rounding, no overflow, no signed zero); the special values
    follow the IEEE rules that numpy and torch apply, so that a division
    by zero is visible in the model as it is in the program.
    [torch.tensor(..).float()] is the identity in this model. *)

From Stdlib Require Import Reals Lra Lia ZArith List String Bool.
From Stdlib Require Import DecimalString.
Import ListNotations.

Open Scope Z_scope.
Open Scope string_scope.
Open Scope R_scope.

(* ------------------------------------------------------------------ *)
(** ** Extended reals *)

Inductive xreal : Type :=
| Fin (r : R)
| PInf
| NInf
| NaN.

Definition sgn (r : R) : comparison :=
  if Rlt_dec 0 r then Gt else if Rlt_dec r 0 then Lt else Eq.

(** The infinity of a given sign; a zero sign stands for an undefined
    product or quotient. *)
Definition inf_of_sign (c : comparison) : xreal :=
  match c with Gt => PInf | Lt => NInf | Eq => NaN end.

Definition xneg (a : xreal) : xreal :=
  match a with
  | Fin r => Fin (- r)
  | PInf => NInf
  | NInf => PInf
  | NaN => NaN
  end.

Definition xadd (a b : xreal) : xreal :=
  match a, b with
  | NaN, _ | _, NaN => NaN
  | Fin x, Fin y => Fin (x + y)
  | PInf, NInf | NInf, PInf => NaN
  | PInf, _ | _, PInf => PInf
  | NInf, _ | _, NInf => NInf
  end.

Definition xsub (a b : xreal) : xreal := xadd a (xneg b).

Definition xmul (a b : xreal) : xreal :=
  match a, b with
  | NaN, _ | _, NaN => NaN
  | Fin x, Fin y => Fin (x * y)
  | Fin x, PInf | PInf, Fin x => inf_of_sign (sgn x)
  | Fin x, NInf | NInf, Fin x => inf_of_sign (CompOpp (sgn x))
  | PInf, PInf | NInf, NInf => PInf
  | PInf, NInf | NInf, PInf => NInf
  end.

Definition xdiv (a b : xreal) : xreal :=
  match a, b with
  | NaN, _ | _, NaN => NaN
  | Fin x, Fin y =>
      if Req_dec_T y 0 then inf_of_sign (sgn x) else Fin (x / y)
  | Fin _, PInf | Fin _, NInf => Fin 0
  | PInf, Fin y => if Rlt_dec y 0 then NInf else PInf
  | NInf, Fin y => if Rlt_dec y 0 then PInf else NInf
  | PInf, PInf | PInf, NInf | NInf, PInf | NInf, NInf => NaN
  end.

Definition xexp (a : xreal) : xreal :=
  match a with
  | Fin r => Fin (exp r)
  | PInf => PInf
  | NInf => Fin 0
  | NaN => NaN
  end.

(** An exponent that is a whole number, and one that is an odd whole
    number. *)
Definition is_int (e : R) : bool :=
  if Req_dec_T (IZR (Int_part e)) e then true else false.

Definition is_odd_int (e : R) : bool :=
  is_int e && Z.odd (Int_part e).

(** [base ** e] for a float exponent [e] ([torch.pow], C's [pow]):
    anything to the power zero is one, also not-a-number. *)
Definition xpow (base : xreal) (e : R) : xreal :=
  if Req_dec_T e 0 then Fin 1 else
  match base with
  | NaN => NaN
  | Fin b =>
      if Rlt_dec 0 b then Fin (Rpower b e)
      else if Req_dec_T b 0 then (if Rlt_dec 0 e then Fin 0 else PInf)
      else if is_int e then Fin (powerRZ b (Int_part e))
      else NaN
  | PInf => if Rlt_dec 0 e then PInf else Fin 0
  | NInf =>
      if Rlt_dec 0 e then (if is_odd_int e then NInf else PInf) else Fin 0
  end.

(** [np.power(b, n)] for a finite float [b] and a Python int [n]. *)
Definition np_power (b : R) (n : Z) : xreal :=
  if (0 <=? n)%Z then Fin (b ^ Z.to_nat n)
  else if Req_dec_T b 0 then PInf
  else Fin (/ (b ^ Z.to_nat (- n))).

(** [np.sum] and [Tensor.sum] of a one-dimensional array. *)
Definition xsum (l : list xreal) : xreal := fold_right xadd (Fin 0) l.

(* ------------------------------------------------------------------ *)
(** ** Exceptions *)

Inductive exn : Type :=
| AssertionError (msg : string)
| IndexError (msg : string)
| ValueError (msg : string)
| RuntimeError (msg : string)
| AttributeError (msg : string).

Definition result (A : Type) : Type := (exn + A)%type.

Definition ret {A} (a : A) : result A := inr a.
Definition raise {A} (e : exn) : result A := inl e.
Definition bind {A B} (c : result A) (k : A -> result B) : result B :=
  match c with
  | inl e => inl e
  | inr a => k a
  end.

Notation "x <- c ;; k" := (bind c (fun x => k))
  (at level 61, c at next level, right associativity).

Fixpoint mapM {A B} (f : A -> result B) (l : list A) : result (list B) :=
  match l with
  | [] => ret []
  | a :: l' => b <- f a ;; bs <- mapM f l' ;; ret (b :: bs)
  end.

(** Decimal rendering of a Python int inside an f-string. *)
Definition str_of_int (z : Z) : string := NilZero.string_of_int (Z.to_int z).

(* ------------------------------------------------------------------ *)
(** ** Tensors

    A float tensor is a scalar (zero-dimensional) or a vector; logits
    are a matrix of finite floats, one row per sample; a label tensor
    is a vector of ints. *)

Inductive Tensor : Type :=
| Scalar (x : xreal)
| Vec (l : list xreal).

Definition Logits : Type := list (list R).
Definition Labels : Type := list Z.

Definition tensor_map (f : xreal -> xreal) (t : Tensor) : Tensor :=
  match t with
  | Scalar x => Scalar (f x)
  | Vec l => Vec (map f l)
  end.

(** Element-wise product of two tensors (a scalar broadcasts). *)
Definition tensor_mul (a b : Tensor) : Tensor :=
  match a, b with
  | Scalar x, Scalar y => Scalar (xmul x y)
  | Scalar x, Vec l => Vec (map (xmul x) l)
  | Vec l, Scalar y => Vec (map (fun x => xmul x y) l)
  | Vec l, Vec k => Vec (map (fun xy => xmul (fst xy) (snd xy)) (combine l k))
  end.

Definition tensor_sum (t : Tensor) : Tensor :=
  match t with
  | Scalar x => Scalar x
  | Vec l => Scalar (xsum l)
  end.

(** [Tensor.mean]: the sum divided by the number of elements. *)
Definition tensor_mean (t : Tensor) : Tensor :=
  match t with
  | Scalar x => Scalar x
  | Vec l => Scalar (xdiv (xsum l) (Fin (INR (List.length l))))
  end.

(* ------------------------------------------------------------------ *)
(** ** [torch.nn.functional.cross_entropy]

    The library function that [FocalLoss.forward] calls, after its
    documentation: the negative log-softmax of the target class, times
    the class weight when a weight vector is given; targets equal to
    [ignore_index] (default -100) contribute a zero loss and are left
    out of the mean; reduction ['mean'] divides by the summed weights of
    the counted targets. *)

Definition ignore_index : Z := (-100)%Z.

Definition sumR (l : list R) : R := fold_right Rplus 0 l.

(** Negative log-likelihood of class [t] for one row of logits. *)
Definition nll (row : list R) (t : Z) : result R :=
  if ((t <? 0) || (Z.of_nat (List.length row) <=? t))%Z
  then raise (IndexError ("Target " ++ str_of_int t ++ " is out of bounds."))
  else ret (ln (sumR (map exp row)) - nth (Z.to_nat t) row 0).

Definition class_weight (weight : option (list xreal)) (row : list R) (t : Z)
  : result xreal :=
  match weight with
  | None => ret (Fin 1)
  | Some w =>
      if Nat.eqb (List.length w) (List.length row)
      then ret (nth (Z.to_nat t) w NaN)
      else raise (RuntimeError
        "weight tensor should be defined either for all or no classes")
  end.

(** Loss of one sample and the weight it counts for in the mean. *)
Definition ce_sample (weight : option (list xreal)) (s : list R * Z)
  : result (xreal * xreal) :=
  let (row, t) := s in
  if (t =? ignore_index)%Z then ret (Fin 0, Fin 0)
  else l <- nll row t ;;
       w <- class_weight weight row t ;;
       ret (xmul w (Fin l), w).

Definition cross_entropy (input : Logits) (target : Labels)
    (weight : option (list xreal)) (reduction : string) : result Tensor :=
  if negb ((reduction =? "none") || (reduction =? "mean")
           || (reduction =? "sum"))%string
  then raise (ValueError (reduction ++ " is not a valid value for reduction"))
  else if negb (Nat.eqb (List.length input) (List.length target))
  then raise (ValueError "Expected input batch_size to match target batch_size")
  else
    ps <- mapM (ce_sample weight) (combine input target) ;;
    if (reduction =? "none")%string then ret (Vec (map fst ps))
    else if (reduction =? "sum")%string then ret (Scalar (xsum (map fst ps)))
    else ret (Scalar (xdiv (xsum (map fst ps)) (xsum (map snd ps)))).

(* ------------------------------------------------------------------ *)
(** ** [class FocalLoss] *)

Record FocalLoss : Type := mkFocalLoss {
  fl_gamma : R;
  fl_weight : option (list xreal);   (* register_buffer('weight', weight) *)
  fl_reduction : string
}.

(** [FocalLoss.__init__], with [reduction] at its default ['mean']. *)
Definition FocalLoss_init (gamma : R) (weight : option (list xreal))
  : FocalLoss := mkFocalLoss gamma weight "mean".

(** Lines 38-43 of [forward]: the dispatch on [self.reduction]. *)
Definition reduce (reduction : string) (loss : Tensor) : Tensor :=
  if (reduction =? "mean")%string then tensor_mean loss
  else if (reduction =? "sum")%string then tensor_sum loss
  else loss.

(** [FocalLoss.forward]. *)
Definition forward (self : FocalLoss) (input : Logits) (target : Labels)
  : result Tensor :=
  ce_loss <- cross_entropy input target None "none" ;;
  let p := tensor_map (fun c => xexp (xneg c)) ce_loss in
  let loss :=
    tensor_mul
      (tensor_map (fun q => xpow (xsub (Fin 1) q) (fl_gamma self)) p)
      ce_loss in
  ret (reduce (fl_reduction self) loss).

(* ------------------------------------------------------------------ *)
(** ** [class FocalLossTrainer] *)

(** A Python list updated in place at a position. *)
Fixpoint list_update {A} (f : A -> A) (i : nat) (l : list A) : list A :=
  match l, i with
  | [], _ => []
  | a :: l', O => f a :: l'
  | a :: l', S j => a :: list_update f j l'
  end.

(** [l[y] += 1] on a Python list: a negative index counts from the end,
    an index outside [-len, len) raises. *)
Definition list_incr (l : list Z) (y : Z) : result (list Z) :=
  let len := Z.of_nat (List.length l) in
  let i := if (y <? 0)%Z then (y + len)%Z else y in
  if ((i <? 0) || (len <=? i))%Z
  then raise (IndexError "list index out of range")
  else ret (list_update Z.succ (Z.to_nat i) l).

(** The value of a label tensor used as a truth value and as a list
    index: it must hold exactly one element. *)
Definition tensor_item (y : Labels) : result Z :=
  match y with
  | [v] => ret v
  | _ => raise (RuntimeError
           "Boolean value of Tensor with more than one value is ambiguous")
  end.

Definition label_message (v num_classes : Z) : string :=
  "The label in class_frequency (tensor([" ++ str_of_int v
  ++ "])) is out of range 0-" ++ str_of_int (num_classes - 1) ++ ".".

Definition rule_message (rule : string) : string :=
  "Unsupported rule: " ++ rule ++ ".".

(** Lines 114-116 and, again, 120-122 of [__init__]: the class-balanced
    weights from the effective number of samples. *)
Definition reweight (beta_reweight : R) (class_frequency : list Z)
    (num_classes : Z) : list xreal :=
  let effective_num :=
    map (fun n => xsub (Fin 1) (np_power beta_reweight n)) class_frequency in
  let _weight := map (xdiv (Fin (1 - beta_reweight))) effective_num in
  let total := xsum _weight in
  map (fun w => xmul (xdiv w total) (Fin (IZR num_classes))) _weight.

Section Trainer.

Variable X : Type.

Definition Batch : Type := (X * Labels)%type.

(** The [class_frequency] argument: a list of ints, or a data loader. *)
Inductive class_frequency_arg : Type :=
| FreqList (l : list Z)
| DataLoader (batches : list Batch).

Record FocalLossTrainer : Type := mkTrainer {
  model : X -> Logits;
  num_classes : Z;
  gamma : R;
  class_frequency : class_frequency_arg;
  rule : string;
  beta_reweight : R;
  drw_epochs : Z;
  _class_frequency : list Z;
  _weight : option (list xreal);
  _drw_weight : option (list xreal);   (* None: the attribute is not set *)
  focal_fn : FocalLoss;
  current_epoch : Z                    (* kept by the host training loop *)
}.

(** Lines 99-103 of [__init__]: the scan of the data loader. *)
Fixpoint count_labels (num_classes : Z) (batches : list Batch)
    (freq : list Z) : result (list Z) :=
  match batches with
  | [] => ret freq
  | (_, y) :: rest =>
      v <- tensor_item y ;;
      if (v <? num_classes)%Z
      then freq' <- list_incr freq v ;; count_labels num_classes rest freq'
      else raise (AssertionError (label_message v num_classes))
  end.

Definition rule_supported (rule : string) : bool :=
  existsb (String.eqb rule) ["none"; "reweight"; "drw"].

(** Lines 98-105 of [__init__]: the frequencies are counted from a data
    loader, and taken as they are otherwise. *)
Definition derive_frequency (num_classes : Z)
    (class_frequency : class_frequency_arg) : result (list Z) :=
  match class_frequency with
  | DataLoader batches =>
      count_labels num_classes batches (repeat 0%Z (Z.to_nat num_classes))
  | FreqList l => ret l
  end.

(** [FocalLossTrainer.__init__]; the base class constructor only stores
    its arguments. *)
Definition FocalLossTrainer_init (model : X -> Logits) (num_classes : Z)
    (class_frequency : class_frequency_arg) (gamma : R) (rule : string)
    (beta_reweight : R) (drw_epochs : Z) : result FocalLossTrainer :=
  cf <- derive_frequency num_classes class_frequency ;;
  if negb (rule_supported rule)
  then raise (AssertionError (rule_message rule))
  else
    let '(w, dw) :=
      if (rule =? "none")%string then (None, None)
      else if (rule =? "reweight")%string
      then (Some (reweight beta_reweight cf num_classes), None)
      else (Some (repeat (Fin 1) (Z.to_nat num_classes)),
            Some (reweight beta_reweight cf num_classes)) in
    ret (mkTrainer model num_classes gamma class_frequency rule
           beta_reweight drw_epochs cf w dw (FocalLoss_init gamma w) 0%Z).

Definition set_focal_fn (self : FocalLossTrainer) (f : FocalLoss)
  : FocalLossTrainer :=
  mkTrainer (model self) (num_classes self) (gamma self)
    (class_frequency self) (rule self) (beta_reweight self)
    (drw_epochs self) (_class_frequency self) (_weight self)
    (_drw_weight self) f (current_epoch self).

Definition set_current_epoch (self : FocalLossTrainer) (epoch : Z)
  : FocalLossTrainer :=
  mkTrainer (model self) (num_classes self) (gamma self)
    (class_frequency self) (rule self) (beta_reweight self)
    (drw_epochs self) (_class_frequency self) (_weight self)
    (_drw_weight self) (focal_fn self) epoch.

(** [FocalLossTrainer.on_train_epoch_start]. *)
Definition on_train_epoch_start (self : FocalLossTrainer)
  : result FocalLossTrainer :=
  let epoch := current_epoch self in
  if ((epoch =? drw_epochs self)%Z && (rule self =? "drw")%string)%bool
  then
    match _drw_weight self with
    | Some dw => ret (set_focal_fn self (FocalLoss_init (gamma self) (Some dw)))
    | None => raise (AttributeError "_drw_weight")
    end
  else ret self.

(** [training_step], [validation_step] and [test_step] compute the same
    loss; logging and metrics are left to the host. *)
Definition training_step (self : FocalLossTrainer) (batch : Batch)
  : result Tensor :=
  let (x, y) := batch in
  let y_hat := model self x in
  forward (focal_fn self) y_hat y.

Definition validation_step := training_step.
Definition test_step := training_step.

(** The host loop runs the epochs in order: before the batches of an
    epoch it sets [current_epoch] and calls [on_train_epoch_start].
    [enter_epochs self first count] enters [count] epochs from [first];
    [at_epoch self e] is the trainer while the batches of epoch [e] are
    processed in a run started at epoch 0. *)
Fixpoint enter_epochs (self : FocalLossTrainer) (first : Z) (count : nat)
  : result FocalLossTrainer :=
  match count with
  | O => ret self
  | S k =>
      self' <- on_train_epoch_start (set_current_epoch self first) ;;
      enter_epochs self' (first + 1)%Z k
  end.

Definition at_epoch (self : FocalLossTrainer) (e : nat)
  : result FocalLossTrainer :=
  enter_epochs self 0%Z (S e).

End Trainer.

Arguments FreqList {X} l.
Arguments DataLoader {X} batches.
Arguments model {X} _ _.
Arguments num_classes {X} _.
Arguments gamma {X} _.
Arguments class_frequency {X} _.
Arguments rule {X} _.
Arguments beta_reweight {X} _.
Arguments drw_epochs {X} _.
Arguments _class_frequency {X} _.
Arguments _weight {X} _.
Arguments _drw_weight {X} _.
Arguments focal_fn {X} _.
Arguments current_epoch {X} _.
Arguments count_labels {X} _ _ _.
Arguments derive_frequency {X} _ _.
Arguments FocalLossTrainer_init {X} _ _ _ _ _ _ _.
Arguments set_focal_fn {X} _ _.
Arguments set_current_epoch {X} _ _.
Arguments on_train_epoch_start {X} _.
Arguments training_step {X} _ _.
Arguments validation_step {X} _ _.
Arguments test_step {X} _ _.
Arguments enter_epochs {X} _ _ _.
Arguments at_epoch {X} _ _.

(* ------------------------------------------------------------------ *)
(** ** The specification's formulas

    Definitions that follow the words of the specification, over the
    reals, to be compared with the program's. *)

(** Section 4.1: [effective_num_c = 1 - beta^(n_c)],
    [raw_weight_c = (1 - beta) / effective_num_c],
    [weight_c = raw_weight_c / sum(raw_weight) * num_classes]. *)
Definition spec_effective_num (beta : R) (n : Z) : R := 1 - beta ^ Z.to_nat n.

Definition spec_raw_weight (beta : R) (n : Z) : R :=
  (1 - beta) / spec_effective_num beta n.

Definition spec_weight (beta : R) (cf : list Z) (num_classes : Z) : list R :=
  map (fun n => spec_raw_weight beta n / sumR (map (spec_raw_weight beta) cf)
                * IZR num_classes) cf.

(** Section 4.2: the arithmetic mean of a per-sample loss sequence. *)
Definition spec_mean (losses : list R) : R :=
  sumR losses / INR (List.length losses).

(** Section 4.2, steps 1 to 4: the focal loss whose cross-entropy uses
    the unit's weight vector. *)
Definition spec_forward (self : FocalLoss) (input : Logits) (target : Labels)
  : result Tensor :=
  ce <- cross_entropy input target (fl_weight self) "none" ;;
  ret (reduce (fl_reduction self)
         (tensor_map
            (fun c => xmul (xpow (xsub (Fin 1) (xexp (xneg c)))
                              (fl_gamma self)) c) ce)).

(* ------------------------------------------------------------------ *)
(** ** Auxiliary notions of the proofs *)

(** The unnormalised weight of one class, as lines 114-115 compute it. *)
Definition raw_weight (beta : R) (n : Z) : xreal :=
  xdiv (Fin (1 - beta)) (xsub (Fin 1) (np_power beta n)).

(** A value that is finite or plus infinity: neither minus infinity nor
    not-a-number. *)
Definition fin_or_pinf (a : xreal) : Prop :=
  match a with Fin _ | PInf => True | _ => False end.

(** The softmax probability that a row of logits gives to class [t]. *)
Definition softmax (row : list R) (t : Z) : R :=
  exp (nth (Z.to_nat t) row 0) / sumR (map exp row).

(** The cross-entropy of one sample whose label is a class of the row. *)
Definition sample_ce (s : list R * Z) : R :=
  ln (sumR (map exp (fst s))) - nth (Z.to_nat (snd s)) (fst s) 0.

(** A batch whose labels are classes of their rows of logits. *)
Definition labels_in_range (input : Logits) (target : Labels) : Prop :=
  Forall2 (fun row t => (0 <= t < Z.of_nat (List.length row))%Z) input target.

(** A loader batch that holds one label, a class below [n]. *)
Definition single_label_in_range {X} (n : Z) (b : X * Labels) : Prop :=
  exists v, snd b = [v] /\ (0 <= v < n)%Z.

(** How often the one-label tensor [[c]] occurs among the label tensors
    of a loader. *)
Definition label_count {X} (batches : list (X * Labels)) (c : Z) : nat :=
  count_occ (list_eq_dec Z.eq_dec) (map snd batches) [c].

(** The modulating factor [q ** gamma] of the focal loss as a real
    number, for a base [q] that is not negative. *)
Definition modulating (q gamma : R) : R :=
  if Req_dec_T gamma 0 then 1
  else if Rlt_dec 0 q then Rpower q gamma else 0.

(** The focal loss of one sample as a real number: the modulating
    factor of one minus the softmax probability of the label, times the
    cross-entropy. *)
Definition focal_value (gamma : R) (s : list R * Z) : R :=
  modulating (1 - softmax (fst s) (snd s)) gamma * sample_ce s.

(* ------------------------------------------------------------------ *)
(** ** Arithmetic of the extended reals *)

Lemma sgn_pos (r : R) : 0 < r -> sgn r = Gt.
Proof. intros H. unfold sgn. destruct (Rlt_dec 0 r); [reflexivity | lra]. Qed.

Lemma sgn_zero : sgn 0 = Eq.
Proof.
  unfold sgn. destruct (Rlt_dec 0 0); [lra | reflexivity].
Qed.

Lemma xmul_1_l (a : xreal) : xmul (Fin 1) a = a.
Proof.
  destruct a; simpl; try reflexivity.
  - f_equal. lra.
  - rewrite sgn_pos by lra. reflexivity.
  - rewrite sgn_pos by lra. reflexivity.
Qed.

Lemma xpow_0 (a : xreal) : xpow a 0 = Fin 1.
Proof.
  unfold xpow. destruct (Req_dec_T 0 0) as [_ | H]; [reflexivity | lra].
Qed.

Lemma xdiv_Fin (a b : R) : b <> 0 -> xdiv (Fin a) (Fin b) = Fin (a / b).
Proof.
  intros H. simpl. destruct (Req_dec_T b 0); [contradiction | reflexivity].
Qed.

Lemma xdiv_Fin_0 (a : R) : 0 < a -> xdiv (Fin a) (Fin 0) = PInf.
Proof.
  intros H. simpl. destruct (Req_dec_T 0 0) as [_ | H0]; [| lra].
  rewrite sgn_pos by assumption. reflexivity.
Qed.

Lemma xsum_Fin (rs : list R) : xsum (map Fin rs) = Fin (sumR rs).
Proof.
  induction rs as [| r rs IH]; [reflexivity |].
  change (xsum (map Fin (r :: rs))) with (xadd (Fin r) (xsum (map Fin rs))).
  rewrite IH. reflexivity.
Qed.

Lemma sumR_repeat_1 (n : nat) : sumR (repeat 1 n) = INR n.
Proof.
  induction n as [| n IH]; [reflexivity |].
  rewrite S_INR. simpl repeat. simpl sumR. rewrite IH. lra.
Qed.

Lemma map_Fin_repeat (r : R) (n : nat) :
  map Fin (repeat r n) = repeat (Fin r) n.
Proof. induction n; simpl; congruence. Qed.

(* ------------------------------------------------------------------ *)
(** ** The loss computation *)

Lemma combine_map_same {A B} (h : A -> B) (l : list A) :
  combine (map h l) l = map (fun c => (h c, c)) l.
Proof. induction l; simpl; congruence. Qed.

(** Lines 35-36 of [forward] act on each entry of the cross-entropy
    tensor on its own. *)
Lemma focal_elementwise (g f : xreal -> xreal) (t : Tensor) :
  tensor_mul (tensor_map g (tensor_map f t)) t
  = tensor_map (fun c => xmul (g (f c)) c) t.
Proof.
  destruct t as [x | l]; simpl; [reflexivity |].
  rewrite map_map, combine_map_same, map_map. reflexivity.
Qed.

Lemma forward_unfold (self : FocalLoss) (input : Logits) (target : Labels) :
  forward self input target
  = ce <- cross_entropy input target None "none" ;;
    ret (reduce (fl_reduction self)
           (tensor_map
              (fun c => xmul (xpow (xsub (Fin 1) (xexp (xneg c)))
                                (fl_gamma self)) c) ce)).
Proof.
  unfold forward. destruct (cross_entropy input target None "none"); simpl;
    [reflexivity |].
  rewrite focal_elementwise. reflexivity.
Qed.

Lemma tensor_map_id (f : xreal -> xreal) (t : Tensor) :
  (forall x, f x = x) -> tensor_map f t = t.
Proof.
  intros H. destruct t as [x | l]; simpl; [now rewrite H |].
  f_equal. induction l; simpl; [reflexivity | now rewrite H, IHl].
Qed.

Lemma ln2_pos : 0 < ln 2.
Proof. pose proof ln_lt_2. lra. Qed.

(** One sample with two equal logits and label 0: the cross-entropy is
    [ln 2], whatever the weight buffer of the loss unit holds. *)
Lemma forward_sum_example (w : option (list xreal)) :
  forward (mkFocalLoss 0 w "sum") [[0; 0]] [0%Z] = inr (Scalar (Fin (ln 2))).
Proof.
  rewrite forward_unfold. cbn.
  rewrite xpow_0, xmul_1_l. cbn.
  rewrite exp_0. replace (1 + (1 + 0)) with 2 by lra.
  unfold ret. do 3 apply f_equal. lra.
Qed.

Lemma cross_entropy_weighted_example :
  cross_entropy [[0; 0]] [0%Z] (Some [Fin 2; Fin 1]) "sum"
  = inr (Scalar (Fin (2 * ln 2))).
Proof.
  cbn. rewrite exp_0. replace (1 + (1 + 0)) with 2 by lra.
  unfold ret. do 3 apply f_equal. lra.
Qed.

Lemma spec_forward_weighted_example :
  spec_forward (mkFocalLoss 0 (Some [Fin 2; Fin 1]) "sum") [[0; 0]] [0%Z]
  = inr (Scalar (Fin (2 * ln 2))).
Proof.
  unfold spec_forward. cbn.
  rewrite xpow_0, xmul_1_l. cbn.
  rewrite exp_0. replace (1 + (1 + 0)) with 2 by lra.
  unfold ret. do 3 apply f_equal. lra.
Qed.

Lemma xsum_repeat_1 (n : nat) : xsum (repeat (Fin 1) n) = Fin (INR n).
Proof. rewrite <- map_Fin_repeat, xsum_Fin, sumR_repeat_1. reflexivity. Qed.

(** Without a weight vector every counted sample weighs one. *)
Lemma ce_sample_unweighted (l : list (list R * Z)) (ps : list (xreal * xreal)) :
  mapM (ce_sample None) l = inr ps ->
  (forall row t, In (row, t) l -> t <> ignore_index) ->
  map snd ps = repeat (Fin 1) (List.length ps).
Proof.
  revert ps. induction l as [| [row t] l IH]; intros ps Hm Hi.
  - injection Hm as <-. reflexivity.
  - simpl in Hm.
    destruct (Z.eqb_spec t ignore_index) as [E | _].
    { exfalso. apply (Hi row t); [now left | exact E]. }
    destruct (nll row t) as [e | v]; simpl in Hm; [discriminate |].
    destruct (mapM (ce_sample None) l) as [e | qs]; simpl in Hm;
      [discriminate |].
    injection Hm as <-. simpl. f_equal.
    apply IH; [reflexivity |]. intros r u Hin. apply (Hi r u). now right.
Qed.

(** C1, on the code.  The claim has the cross-entropy inside the focal
    loss use the active weight vector.  [forward] never reads
    [self.weight]: its output is the same for any two weight vectors,
    and at one sample with logits [0, 0], label 0, weight [2, 1],
    gamma 0 and reduction 'sum' it returns [ln 2] where the weighted
    computation of the specification gives [2 * ln 2]. *)
Theorem forward_ignores_weight :
  (forall gamma w1 w2 reduction input target,
      forward (mkFocalLoss gamma w1 reduction) input target
      = forward (mkFocalLoss gamma w2 reduction) input target)
  /\ forward (mkFocalLoss 0 (Some [Fin 2; Fin 1]) "sum") [[0; 0]] [0%Z]
     <> spec_forward (mkFocalLoss 0 (Some [Fin 2; Fin 1]) "sum")
          [[0; 0]] [0%Z].
Proof.
  split; [reflexivity |].
  rewrite forward_sum_example, spec_forward_weighted_example.
  intros H. injection H as H. pose proof ln2_pos. lra.
Qed.

(** C6, as stated, fails: with weight vector [2, 1] and gamma 0 the
    focal loss of one sample with logits [0, 0] and label 0 under
    reduction 'sum' is not the weighted cross-entropy under 'sum'. *)
Lemma gamma0_weighted_counterexample :
  forward (mkFocalLoss 0 (Some [Fin 2; Fin 1]) "sum") [[0; 0]] [0%Z]
  <> cross_entropy [[0; 0]] [0%Z] (Some [Fin 2; Fin 1]) "sum".
Proof.
  rewrite forward_sum_example, cross_entropy_weighted_example.
  intros H. injection H as H. pose proof ln2_pos. lra.
Qed.

(** The condition on the ignore index in the statement below cannot be
    dropped: a sample labelled -100 has loss zero and is counted by the
    mean of [forward], not by the mean of the cross-entropy. *)
Lemma gamma0_ignore_index_mean :
  forward (mkFocalLoss 0 None "mean") [[0; 0]; [0; 0]] [0%Z; (-100)%Z]
  = inr (Scalar (Fin (ln 2 / 2)))
  /\ cross_entropy [[0; 0]; [0; 0]] [0%Z; (-100)%Z] None "mean"
     = inr (Scalar (Fin (ln 2))).
Proof.
  split.
  - rewrite forward_unfold. cbn.
    rewrite !xpow_0, !xmul_1_l. cbn.
    destruct (Req_dec_T (1 + 1) 0); [lra |].
    rewrite exp_0. replace (1 + (1 + 0)) with 2 by lra.
    unfold ret. do 3 apply f_equal. lra.
  - cbn. destruct (Req_dec_T (1 + (0 + 0)) 0); [lra |].
    rewrite exp_0. replace (1 + (1 + 0)) with 2 by lra.
    unfold ret. do 3 apply f_equal. field.
Qed.

(** C6, amended.  For a loss unit without a weight vector and gamma 0,
    for every logits and labels and each of the reduction modes 'mean',
    'sum' and 'none', [forward] returns what the plain cross-entropy
    returns under that mode (the same tensor or the same exception);
    under 'mean' the labels must not hold the ignore index of the
    cross-entropy, whose mean leaves such samples out of the count. *)
Theorem focal_gamma0_is_cross_entropy
    (reduction : string) (input : Logits) (target : Labels) :
  In reduction ["mean"; "sum"; "none"] ->
  (reduction = "mean" -> ~ In ignore_index target) ->
  forward (mkFocalLoss 0 None reduction) input target
  = cross_entropy input target None reduction.
Proof.
  intros Hr Hig. rewrite forward_unfold. cbn [fl_gamma fl_reduction].
  assert (Hid : forall t, tensor_map
             (fun c => xmul (xpow (xsub (Fin 1) (xexp (xneg c))) 0) c) t = t).
  { intros t. apply tensor_map_id. intros x. now rewrite xpow_0, xmul_1_l. }
  unfold cross_entropy.
  destruct Hr as [<- | [<- | [<- | []]]]; cbn [String.eqb Ascii.eqb Bool.eqb
    orb negb];
    destruct (negb (Nat.eqb (List.length input) (List.length target)));
    try reflexivity.
  - destruct (mapM (ce_sample None) (combine input target)) as [e | ps] eqn:Hm;
      cbn [bind ret]; [reflexivity |].
    rewrite Hid. unfold reduce. simpl. rewrite length_map.
    rewrite (ce_sample_unweighted _ _ Hm), xsum_repeat_1; [reflexivity |].
    intros row t Hin E. apply Hig; [reflexivity |].
    apply in_combine_r in Hin. now rewrite <- E.
  - destruct (mapM (ce_sample None) (combine input target)) as [e | ps];
      cbn [bind ret]; [reflexivity |].
    rewrite Hid. reflexivity.
  - destruct (mapM (ce_sample None) (combine input target)) as [e | ps];
      cbn [bind ret]; [reflexivity |].
    rewrite Hid. reflexivity.
Qed.

Lemma focal_gamma0_is_cross_entropy_witness :
  forward (mkFocalLoss 0 None "mean") [[0; 0]; [1; 2]] [0%Z; 1%Z]
  = cross_entropy [[0; 0]; [1; 2]] [0%Z; 1%Z] None "mean".
Proof.
  apply focal_gamma0_is_cross_entropy.
  - simpl. auto.
  - intros _. simpl. unfold ignore_index. intros [H | [H | []]]; lia.
Defined.

Lemma reduce_other (reduction : string) (loss : Tensor) :
  reduction <> "mean" -> reduction <> "sum" -> reduce reduction loss = loss.
Proof.
  intros Hm Hs. unfold reduce.
  apply String.eqb_neq in Hm. apply String.eqb_neq in Hs.
  rewrite Hm, Hs. reflexivity.
Qed.

Lemma mapM_length {A B} (f : A -> result B) (l : list A) (bs : list B) :
  mapM f l = inr bs -> List.length bs = List.length l.
Proof.
  revert bs. induction l as [| a l IH]; intros bs H; simpl in H.
  - injection H as <-. reflexivity.
  - destruct (f a) as [e | b]; simpl in H; [discriminate |].
    destruct (mapM f l) as [e | bs']; simpl in H; [discriminate |].
    injection H as <-. simpl. f_equal. now apply IH.
Qed.

(** The unreduced cross-entropy is a vector with one entry per label. *)
Lemma cross_entropy_none_shape (input : Logits) (target : Labels)
    (w : option (list xreal)) (t : Tensor) :
  cross_entropy input target w "none" = inr t ->
  exists l, t = Vec l /\ List.length l = List.length target.
Proof.
  unfold cross_entropy. cbn [String.eqb Ascii.eqb Bool.eqb orb negb].
  destruct (Nat.eqb_spec (List.length input) (List.length target)) as [E | _];
    cbn [negb]; [| discriminate].
  destruct (mapM (ce_sample w) (combine input target)) as [e | ps] eqn:Hm;
    cbn [bind ret]; [discriminate |].
  intros H. injection H as <-. exists (map fst ps). split; [reflexivity |].
  rewrite length_map, (mapM_length _ _ _ Hm), length_combine. lia.
Qed.

(** C9.  [forward] applies [reduce] to the per-sample loss; on a
    per-sample sequence of finite losses, mode 'mean' returns the
    arithmetic mean (of a sequence that is not empty), 'sum' the sum and
    'none' the sequence itself; for [1.0, 3.0] these are 2.0, 4.0 and
    [1.0, 3.0]. *)
Theorem reduce_modes :
  (forall self input target,
      forward self input target
      = loss <- forward (mkFocalLoss (fl_gamma self) (fl_weight self) "none")
                  input target ;;
        ret (reduce (fl_reduction self) loss))
  /\ (forall rs, rs <> [] ->
        reduce "mean" (Vec (map Fin rs)) = Scalar (Fin (spec_mean rs)))
  /\ (forall rs, reduce "sum" (Vec (map Fin rs)) = Scalar (Fin (sumR rs)))
  /\ (forall l, reduce "none" (Vec l) = Vec l)
  /\ reduce "mean" (Vec [Fin 1; Fin 3]) = Scalar (Fin 2)
  /\ reduce "sum" (Vec [Fin 1; Fin 3]) = Scalar (Fin 4)
  /\ reduce "none" (Vec [Fin 1; Fin 3]) = Vec [Fin 1; Fin 3].
Proof.
  assert (Hmean : forall rs, rs <> [] ->
            reduce "mean" (Vec (map Fin rs)) = Scalar (Fin (spec_mean rs))).
  { intros rs Hne. unfold reduce. cbn [String.eqb Ascii.eqb Bool.eqb].
    unfold tensor_mean. rewrite xsum_Fin, length_map, xdiv_Fin; [reflexivity |].
    destruct rs as [| r rs]; [contradiction |].
    apply not_0_INR. simpl. discriminate. }
  assert (Hsum : forall rs,
            reduce "sum" (Vec (map Fin rs)) = Scalar (Fin (sumR rs))).
  { intros rs. unfold reduce. cbn [String.eqb Ascii.eqb Bool.eqb].
    unfold tensor_sum. now rewrite xsum_Fin. }
  repeat split.
  - intros self input target. rewrite !forward_unfold. cbn [fl_reduction fl_gamma].
    destruct (cross_entropy input target None "none"); reflexivity.
  - exact Hmean.
  - exact Hsum.
  - change [Fin 1; Fin 3] with (map Fin [1; 3]).
    rewrite Hmean by discriminate. unfold spec_mean. simpl.
    do 2 f_equal. lra.
  - change [Fin 1; Fin 3] with (map Fin [1; 3]).
    rewrite Hsum. simpl. do 2 f_equal. lra.
Qed.

Lemma reduce_modes_witness :
  reduce "mean" (Vec (map Fin [1; 3])) = Scalar (Fin (spec_mean [1; 3])).
Proof.
  apply (proj1 (proj2 reduce_modes)). discriminate.
Defined.

(** C10.  For every reduction string other than 'mean' and 'sum',
    [forward] raises nothing of its own: it behaves as under 'none', and
    what it returns is the unreduced per-sample loss vector, one entry
    per label. *)
Theorem forward_unknown_reduction
    (self : FocalLoss) (input : Logits) (target : Labels) :
  fl_reduction self <> "mean" ->
  fl_reduction self <> "sum" ->
  forward self input target
  = forward (mkFocalLoss (fl_gamma self) (fl_weight self) "none") input target
  /\ (forall e, forward self input target = inl e ->
        cross_entropy input target None "none" = inl e)
  /\ (forall t, forward self input target = inr t ->
        exists l, t = Vec l /\ List.length l = List.length target).
Proof.
  intros Hm Hs. rewrite !forward_unfold. cbn [fl_reduction fl_gamma].
  destruct (cross_entropy input target None "none") as [e | ce] eqn:Hce;
    cbn [bind ret].
  - repeat split; [auto | discriminate].
  - rewrite reduce_other by assumption.
    repeat split; [discriminate |].
    intros t H. injection H as <-.
    destruct (cross_entropy_none_shape _ _ _ _ Hce) as (l & -> & Hl).
    exists (map (fun c => xmul (xpow (xsub (Fin 1) (xexp (xneg c)))
                            (fl_gamma self)) c) l).
    split; [reflexivity |]. now rewrite length_map.
Qed.

Lemma forward_unknown_reduction_witness :
  forward (mkFocalLoss 2 None "meen") [[0; 0]] [0%Z]
  = forward (mkFocalLoss 2 None "none") [[0; 0]] [0%Z].
Proof.
  apply (forward_unknown_reduction (mkFocalLoss 2 None "meen"));
    simpl; discriminate.
Defined.

(* ------------------------------------------------------------------ *)
(** ** Construction of the trainer: frequencies and the rule *)

(** The scan of the specification's example: labels 0, 1, 0 with two
    classes give the frequencies [2, 1]. *)
Example count_labels_example (x0 x1 x2 : nat) :
  count_labels 2 [(x0, [0%Z]); (x1, [1%Z]); (x2, [0%Z])] [0%Z; 0%Z]
  = inr [2%Z; 1%Z].
Proof. reflexivity. Qed.

(** A label at or above [num_classes] stops the scan with the message
    that names the label and the range. *)
Lemma label_too_large_rejected {X} (n v : Z) (x : X) (rest : list (Batch X))
    (freq : list Z) :
  (n <= v)%Z ->
  count_labels n ((x, [v]) :: rest) freq
  = inl (AssertionError (label_message v n)).
Proof.
  intros H. simpl. destruct (Z.ltb_spec v n); [lia | reflexivity].
Qed.

(** A negative label passes the assertion; down to [- len] it is counted
    from the end of the list, below it the list access raises. *)
Lemma negative_label_wraps {X} (n v : Z) (x : X) (rest : list (Batch X))
    (freq : list Z) :
  (v < 0)%Z -> (v < n)%Z ->
  count_labels n ((x, [v]) :: rest) freq
  = if (v + Z.of_nat (List.length freq) <? 0)%Z
    then inl (IndexError "list index out of range")
    else count_labels n rest
           (list_update Z.succ (Z.to_nat (v + Z.of_nat (List.length freq))) freq).
Proof.
  intros Hneg Hlt. simpl.
  destruct (Z.ltb_spec v n); [| lia].
  unfold list_incr. destruct (Z.ltb_spec v 0); [| lia].
  destruct (Z.ltb_spec (v + Z.of_nat (List.length freq)) 0); simpl;
    [reflexivity |].
  destruct (Z.leb_spec (Z.of_nat (List.length freq))
              (v + Z.of_nat (List.length freq))); [lia | reflexivity].
Qed.

(** C5, on the code.  The claim has every label outside
    [0, num_classes) rejected, negative ones included.  With two
    classes, a loader whose only label is -1 is scanned without an
    error: the label is counted for the last class, the frequencies are
    [0, 1] and the trainer is built. *)
Theorem negative_label_counted :
  count_labels 2 [(tt, [(-1)%Z])] [0%Z; 0%Z] = inr [0%Z; 1%Z]
  /\ exists tr,
       FocalLossTrainer_init (fun _ : unit => []) 2
         (DataLoader [(tt, [(-1)%Z])]) (1 / 2) "none" (9999 / 10000) 160
       = inr tr
       /\ _class_frequency tr = [0%Z; 1%Z].
Proof.
  split; [reflexivity |].
  eexists. split; reflexivity.
Qed.

Lemma rule_unsupported (rule : string) :
  rule <> "none" -> rule <> "reweight" -> rule <> "drw" ->
  rule_supported rule = false.
Proof.
  intros H1 H2 H3. unfold rule_supported. simpl.
  apply String.eqb_neq in H1. apply String.eqb_neq in H2.
  apply String.eqb_neq in H3. now rewrite H1, H2, H3.
Qed.

(** C7.  For every rule other than 'none', 'reweight' and 'drw' the
    construction fails; once the class frequencies are there (a list, or
    a loader whose scan succeeds) it fails with the assertion error
    [Unsupported rule: <rule>.]. *)
Theorem unsupported_rule_rejected {X} (model : X -> Logits) (n : Z)
    (arg : class_frequency_arg X) (g : R) (rule : string) (beta : R) (d : Z) :
  rule <> "none" -> rule <> "reweight" -> rule <> "drw" ->
  (exists e, FocalLossTrainer_init model n arg g rule beta d = inl e)
  /\ (forall cf, derive_frequency n arg = inr cf ->
        FocalLossTrainer_init model n arg g rule beta d
        = inl (AssertionError (rule_message rule)))
  /\ (forall cf, FocalLossTrainer_init model n (FreqList cf) g rule beta d
                 = inl (AssertionError (rule_message rule))).
Proof.
  intros H1 H2 H3. pose proof (rule_unsupported rule H1 H2 H3) as Hr.
  unfold FocalLossTrainer_init. repeat split.
  - destruct (derive_frequency n arg) as [e | cf]; cbn [bind].
    + eexists. reflexivity.
    + rewrite Hr. eexists. reflexivity.
  - intros cf Hc. rewrite Hc. cbn [bind]. now rewrite Hr.
  - intros cf. cbn [derive_frequency bind ret]. now rewrite Hr.
Qed.

Lemma unsupported_rule_rejected_witness :
  FocalLossTrainer_init (fun _ : unit => []) 2 (FreqList [10%Z; 20%Z])
    (1 / 2) "invalid" (9999 / 10000) 160
  = inl (AssertionError "Unsupported rule: invalid.").
Proof.
  apply (proj2 (proj2 (unsupported_rule_rejected (fun _ : unit => []) 2
           (FreqList [10%Z; 20%Z]) (1 / 2) "invalid" (9999 / 10000) 160
           ltac:(discriminate) ltac:(discriminate) ltac:(discriminate)))
           [10%Z; 20%Z]).
Defined.

(* ------------------------------------------------------------------ *)
(** ** The effective-number weights *)

Lemma init_reweight {X} (model : X -> Logits) (n : Z)
    (arg : class_frequency_arg X) (cf : list Z) (g beta : R) (d : Z) :
  derive_frequency n arg = inr cf ->
  FocalLossTrainer_init model n arg g "reweight" beta d
  = inr (mkTrainer X model n g arg "reweight" beta d cf
           (Some (reweight beta cf n)) None
           (FocalLoss_init g (Some (reweight beta cf n))) 0%Z).
Proof. intros H. unfold FocalLossTrainer_init. rewrite H. reflexivity. Qed.

Lemma init_drw {X} (model : X -> Logits) (n : Z)
    (arg : class_frequency_arg X) (cf : list Z) (g beta : R) (d : Z) :
  derive_frequency n arg = inr cf ->
  FocalLossTrainer_init model n arg g "drw" beta d
  = inr (mkTrainer X model n g arg "drw" beta d cf
           (Some (repeat (Fin 1) (Z.to_nat n))) (Some (reweight beta cf n))
           (FocalLoss_init g (Some (repeat (Fin 1) (Z.to_nat n)))) 0%Z).
Proof. intros H. unfold FocalLossTrainer_init. rewrite H. reflexivity. Qed.

Lemma reweight_raw (beta : R) (cf : list Z) (n : Z) :
  reweight beta cf n
  = map (fun w => xmul (xdiv w (xsum (map (raw_weight beta) cf)))
                    (Fin (IZR n)))
        (map (raw_weight beta) cf).
Proof. unfold reweight. rewrite !map_map. reflexivity. Qed.

Lemma pow_below_1 (beta : R) (k : nat) :
  0 <= beta < 1 -> (0 < k)%nat -> 0 <= beta ^ k < 1.
Proof. intros Hb Hk. now apply pow_lt_1_compat. Qed.

Lemma spec_effective_num_pos (beta : R) (n : Z) :
  0 <= beta < 1 -> (0 < n)%Z -> 0 < spec_effective_num beta n.
Proof.
  intros Hb Hn. unfold spec_effective_num.
  assert (0 <= beta ^ Z.to_nat n < 1) by (apply pow_below_1; [assumption | lia]).
  lra.
Qed.

Lemma spec_raw_weight_pos (beta : R) (n : Z) :
  0 <= beta < 1 -> (0 < n)%Z -> 0 < spec_raw_weight beta n.
Proof.
  intros Hb Hn. unfold spec_raw_weight.
  apply Rdiv_lt_0_compat; [lra | now apply spec_effective_num_pos].
Qed.

Lemma raw_weight_positive (beta : R) (n : Z) :
  0 <= beta < 1 -> (0 < n)%Z ->
  raw_weight beta n = Fin (spec_raw_weight beta n).
Proof.
  intros Hb Hn. unfold raw_weight, np_power.
  destruct (Z.leb_spec 0 n); [| lia].
  pose proof (spec_effective_num_pos beta n Hb Hn) as Hp.
  unfold spec_raw_weight. unfold spec_effective_num in *.
  cbn [xsub xneg xadd]. rewrite xdiv_Fin by lra.
  f_equal.
Qed.

Lemma raw_weight_zero (beta : R) : 0 <= beta < 1 -> raw_weight beta 0 = PInf.
Proof.
  intros Hb. unfold raw_weight, np_power.
  cbn [Z.leb Z.compare Z.to_nat pow xsub xneg xadd].
  rewrite Rplus_opp_r. apply xdiv_Fin_0. lra.
Qed.

Lemma raw_weight_fin_or_pinf (beta : R) (n : Z) :
  0 <= beta < 1 -> fin_or_pinf (raw_weight beta n).
Proof.
  intros Hb. destruct (Z.lt_trichotomy n 0) as [Hn | [-> | Hn]].
  - unfold raw_weight, np_power. destruct (Z.leb_spec 0 n); [lia |].
    destruct (Req_dec_T beta 0) as [E | NE]; cbn; [exact I |].
    assert (Hk : 0 < beta ^ Z.to_nat (- n) < 1).
    { split; [apply pow_lt; lra |].
      apply pow_below_1; [lra | lia]. }
    assert (Hinv : 1 < / beta ^ Z.to_nat (- n)).
    { rewrite <- Rinv_1. apply Rinv_lt_contravar; lra. }
    destruct (Req_dec_T (1 + - / beta ^ Z.to_nat (- n)) 0); [lra | exact I].
  - rewrite raw_weight_zero by assumption. exact I.
  - rewrite raw_weight_positive by assumption. exact I.
Qed.

Lemma xsum_cons (a : xreal) (l : list xreal) :
  xsum (a :: l) = xadd a (xsum l).
Proof. reflexivity. Qed.

Lemma xsum_fin_or_pinf (l : list xreal) :
  Forall fin_or_pinf l -> fin_or_pinf (xsum l).
Proof.
  induction 1 as [| a l Ha _ IH]; [exact I |].
  rewrite xsum_cons. destruct a, (xsum l); simpl in *; auto.
Qed.

Lemma xsum_pinf (l : list xreal) :
  Forall fin_or_pinf l -> In PInf l -> xsum l = PInf.
Proof.
  induction 1 as [| a l Ha Hl IH]; intros Hin; [destruct Hin |].
  rewrite xsum_cons. pose proof (xsum_fin_or_pinf l Hl) as Hs.
  destruct Hin as [-> | Hin].
  - destruct (xsum l); simpl in *; tauto.
  - rewrite (IH Hin). destruct a; simpl in *; tauto.
Qed.

Lemma sumR_pos (l : list R) :
  l <> [] -> Forall (fun r => 0 < r) l -> 0 < sumR l.
Proof.
  intros Hne H. induction H as [| r l Hr Hl IH]; [contradiction |].
  simpl. destruct l as [| r' l'].
  - simpl. lra.
  - assert (0 < sumR (r' :: l')) by (apply IH; discriminate). lra.
Qed.

Lemma sumR_scale (f : Z -> R) (c : R) (l : list Z) :
  sumR (map (fun n => f n * c) l) = sumR (map f l) * c.
Proof.
  induction l as [| a l IH]; simpl; [lra |]. rewrite IH. lra.
Qed.

Lemma spec_raw_weights_pos (beta : R) (cf : list Z) :
  0 <= beta < 1 -> Forall (fun n => (0 < n)%Z) cf ->
  Forall (fun r => 0 < r) (map (spec_raw_weight beta) cf).
Proof.
  intros Hb H. induction H as [| n cf Hn _ IH]; simpl; constructor;
    [now apply spec_raw_weight_pos | exact IH].
Qed.

Lemma raw_weights_positive (beta : R) (cf : list Z) :
  0 <= beta < 1 -> Forall (fun n => (0 < n)%Z) cf ->
  map (raw_weight beta) cf = map Fin (map (spec_raw_weight beta) cf).
Proof.
  intros Hb H. rewrite map_map. apply map_ext_in. intros n Hin.
  rewrite Forall_forall in H. apply raw_weight_positive; auto.
Qed.

(** On positive frequencies the program's weights are finite and are
    the weights of the specification's formula. *)
Lemma reweight_positive (beta : R) (cf : list Z) (n : Z) :
  0 <= beta < 1 -> Forall (fun m => (0 < m)%Z) cf ->
  reweight beta cf n = map Fin (spec_weight beta cf n).
Proof.
  intros Hb Hpos. rewrite reweight_raw, raw_weights_positive by assumption.
  rewrite xsum_Fin. unfold spec_weight. rewrite !map_map.
  apply map_ext_in. intros m Hin.
  assert (0 < sumR (map (spec_raw_weight beta) cf)).
  { apply sumR_pos; [| now apply spec_raw_weights_pos].
    destruct cf; [destruct Hin | discriminate]. }
  rewrite xdiv_Fin by lra. reflexivity.
Qed.

Lemma spec_weight_sum (beta : R) (cf : list Z) (n : Z) :
  0 <= beta < 1 -> Forall (fun m => (0 < m)%Z) cf ->
  (cf = [] -> n = 0%Z) ->
  sumR (spec_weight beta cf n) = IZR n.
Proof.
  intros Hb Hpos Hlen. unfold spec_weight.
  set (s := sumR (map (spec_raw_weight beta) cf)).
  rewrite (sumR_scale (fun m => spec_raw_weight beta m / s) (IZR n)).
  destruct cf as [| c cf'].
  - rewrite (Hlen eq_refl). simpl. lra.
  - assert (0 < s).
    { apply sumR_pos; [discriminate | now apply spec_raw_weights_pos]. }
    rewrite (sumR_scale (spec_raw_weight beta) (/ s)).
    fold s. field. lra.
Qed.

(** C4.  For class frequencies that are all positive (with beta in
    [0, 1), and no classes when the list is empty), the weight vector
    of rule 'reweight' and the deferred vector of rule 'drw' are the
    effective-number formula [(1 - beta) / (1 - beta^n_c)], divided by
    the sum over the classes and multiplied by [num_classes]; the vector
    sums to [num_classes]. *)
Theorem reweight_is_effective_number {X} (model : X -> Logits) (n : Z)
    (arg : class_frequency_arg X) (cf : list Z) (g beta : R) (d : Z) :
  derive_frequency n arg = inr cf ->
  0 <= beta < 1 ->
  Forall (fun m => (0 < m)%Z) cf ->
  (cf = [] -> n = 0%Z) ->
  (exists tr,
      FocalLossTrainer_init model n arg g "reweight" beta d = inr tr
      /\ _weight tr = Some (map Fin (spec_weight beta cf n))
      /\ fl_weight (focal_fn tr) = _weight tr)
  /\ (exists tr,
      FocalLossTrainer_init model n arg g "drw" beta d = inr tr
      /\ _drw_weight tr = Some (map Fin (spec_weight beta cf n)))
  /\ xsum (reweight beta cf n) = Fin (IZR n)
  /\ sumR (spec_weight beta cf n) = IZR n.
Proof.
  intros Hcf Hb Hpos Hlen.
  pose proof (reweight_positive beta cf n Hb Hpos) as Hw.
  pose proof (spec_weight_sum beta cf n Hb Hpos Hlen) as Hs.
  repeat split.
  - rewrite (init_reweight model n arg cf) by exact Hcf.
    eexists. split; [reflexivity |].
    cbn [_weight focal_fn FocalLoss_init fl_weight]. now rewrite Hw.
  - rewrite (init_drw model n arg cf) by exact Hcf.
    eexists. split; [reflexivity |].
    cbn [_drw_weight]. now rewrite Hw.
  - now rewrite Hw, xsum_Fin, Hs.
  - exact Hs.
Qed.

Lemma reweight_is_effective_number_witness :
  xsum (reweight (1 / 2) [1%Z; 2%Z] 2) = Fin 2.
Proof.
  apply (reweight_is_effective_number (fun _ : unit => []) 2
           (FreqList [1%Z; 2%Z]) [1%Z; 2%Z] 1 (1 / 2) 160).
  - reflexivity.
  - lra.
  - repeat constructor.
  - discriminate.
Defined.

Lemma map_const {A B} (f : A -> B) (v : B) (l : list A) :
  (forall a, In a l -> f a = v) -> map f l = repeat v (List.length l).
Proof.
  induction l as [| a l IH]; intros H; simpl; [reflexivity |].
  rewrite (H a) by now left. f_equal. apply IH. intros b Hb. apply H.
  now right.
Qed.

Lemma sumR_repeat (r : R) (k : nat) : sumR (repeat r k) = INR k * r.
Proof.
  induction k as [| k IH]; [simpl; lra |].
  rewrite S_INR. simpl repeat. simpl sumR. rewrite IH. lra.
Qed.

Lemma spec_weight_uniform (beta : R) (cf : list Z) (c n : Z) :
  0 <= beta < 1 -> (0 < c)%Z ->
  Forall (fun m => m = c) cf ->
  Z.of_nat (List.length cf) = n ->
  spec_weight beta cf n = repeat 1 (List.length cf).
Proof.
  intros Hb Hc Hall Hlen. rewrite Forall_forall in Hall.
  unfold spec_weight.
  rewrite (map_const (spec_raw_weight beta) (spec_raw_weight beta c) cf)
    by (intros a Ha; now rewrite (Hall a Ha)).
  rewrite sumR_repeat. apply map_const. intros m Hm.
  rewrite (Hall m Hm).
  pose proof (spec_raw_weight_pos beta c Hb Hc) as Hr.
  assert (Hk : 0 < INR (List.length cf)).
  { apply lt_0_INR. destruct cf; [destruct Hm | simpl; lia]. }
  rewrite <- Hlen, <- INR_IZR_INZ. field. lra.
Qed.

(** C8.  For class frequencies that are all equal and positive (one per
    class, with beta in [0, 1)), the weight vector of rule 'reweight' is
    [1, 1, ..., 1] with [num_classes] entries. *)
Theorem reweight_uniform {X} (model : X -> Logits) (n : Z)
    (arg : class_frequency_arg X) (cf : list Z) (c : Z) (g beta : R) (d : Z) :
  derive_frequency n arg = inr cf ->
  0 <= beta < 1 ->
  (0 < c)%Z ->
  Forall (fun m => m = c) cf ->
  Z.of_nat (List.length cf) = n ->
  reweight beta cf n = repeat (Fin 1) (Z.to_nat n)
  /\ exists tr,
       FocalLossTrainer_init model n arg g "reweight" beta d = inr tr
       /\ _weight tr = Some (repeat (Fin 1) (Z.to_nat n)).
Proof.
  intros Hcf Hb Hc Hall Hlen.
  assert (Hw : reweight beta cf n = repeat (Fin 1) (Z.to_nat n)).
  { rewrite reweight_positive; [| assumption |].
    - rewrite (spec_weight_uniform beta cf c n) by assumption.
      rewrite map_Fin_repeat. f_equal. lia.
    - eapply Forall_impl; [| exact Hall]. simpl. intros m ->. exact Hc. }
  split; [exact Hw |].
  rewrite (init_reweight model n arg cf) by exact Hcf.
  eexists. split; [reflexivity |].
  cbn [_weight]. now rewrite Hw.
Qed.

Lemma reweight_uniform_witness :
  reweight (9999 / 10000) [7%Z; 7%Z; 7%Z] 3 = [Fin 1; Fin 1; Fin 1].
Proof.
  apply (reweight_uniform (fun _ : unit => []) 3
           (DataLoader (repeat (tt, [0%Z]) 7 ++ repeat (tt, [1%Z]) 7
                        ++ repeat (tt, [2%Z]) 7))
           [7%Z; 7%Z; 7%Z] 7 1 (9999 / 10000) 160).
  - reflexivity.
  - lra.
  - lia.
  - repeat constructor.
  - reflexivity.
Defined.

(** C3, as stated, fails: with class frequencies [5, 0] and rule
    'reweight' the construction raises nothing. *)
Lemma zero_frequency_counterexample :
  ~ exists e,
      FocalLossTrainer_init (fun _ : unit => []) 2 (FreqList [5%Z; 0%Z])
        (1 / 2) "reweight" (9999 / 10000) 160 = inl e.
Proof.
  intros [e H].
  rewrite (init_reweight _ _ _ [5%Z; 0%Z]) in H by reflexivity.
  discriminate.
Qed.

Lemma reweight_zero_nan (beta : R) (cf : list Z) (n : Z) (i : nat) :
  0 <= beta < 1 ->
  nth_error cf i = Some 0%Z ->
  nth_error (reweight beta cf n) i = Some NaN.
Proof.
  intros Hb Hi. rewrite reweight_raw.
  assert (Hsum : xsum (map (raw_weight beta) cf) = PInf).
  { apply xsum_pinf.
    - apply Forall_forall. intros a Ha. apply in_map_iff in Ha.
      destruct Ha as (m & <- & _). now apply raw_weight_fin_or_pinf.
    - rewrite <- (raw_weight_zero beta Hb). apply in_map.
      eapply nth_error_In. exact Hi. }
  rewrite Hsum, !nth_error_map, Hi. simpl.
  now rewrite raw_weight_zero.
Qed.

(** C3, amended.  For class frequencies with a zero entry (given as a
    list, or counted from a loader), rule 'reweight' or 'drw' and beta
    in [0, 1), the construction raises no error: the trainer is built,
    and its re-weighted vector holds not-a-number at every class of
    frequency zero. *)
Theorem zero_frequency_accepted {X} (model : X -> Logits) (n : Z)
    (arg : class_frequency_arg X) (cf : list Z) (g : R) (rule : string)
    (beta : R) (d : Z) :
  derive_frequency n arg = inr cf ->
  In 0%Z cf ->
  rule = "reweight" \/ rule = "drw" ->
  0 <= beta < 1 ->
  exists tr w,
    FocalLossTrainer_init model n arg g rule beta d = inr tr
    /\ (if (rule =? "reweight")%string then _weight tr else _drw_weight tr)
       = Some w
    /\ In NaN w
    /\ forall i, nth_error cf i = Some 0%Z -> nth_error w i = Some NaN.
Proof.
  intros Hcf Hin Hr Hb.
  assert (Hnan : In NaN (reweight beta cf n)).
  { destruct (In_nth_error _ _ Hin) as [i Hi].
    eapply nth_error_In. apply reweight_zero_nan; eassumption. }
  destruct Hr as [-> | ->].
  - rewrite (init_reweight model n arg cf) by exact Hcf.
    do 2 eexists. split; [reflexivity |].
    split; [reflexivity |]. split; [exact Hnan |].
    intros i Hi. now apply reweight_zero_nan.
  - rewrite (init_drw model n arg cf) by exact Hcf.
    do 2 eexists. split; [reflexivity |].
    split; [reflexivity |]. split; [exact Hnan |].
    intros i Hi. now apply reweight_zero_nan.
Qed.

Lemma zero_frequency_accepted_witness :
  exists tr w,
    FocalLossTrainer_init (fun _ : unit => []) 2 (FreqList [5%Z; 0%Z])
      (1 / 2) "reweight" (9999 / 10000) 160 = inr tr
    /\ _weight tr = Some w
    /\ In NaN w
    /\ forall i, nth_error [5%Z; 0%Z] i = Some 0%Z -> nth_error w i = Some NaN.
Proof.
  apply (zero_frequency_accepted (fun _ : unit => []) 2
           (FreqList [5%Z; 0%Z]) [5%Z; 0%Z]
           (1 / 2) "reweight" (9999 / 10000) 160).
  - reflexivity.
  - simpl. auto.
  - left. reflexivity.
  - lra.
Defined.

(* ------------------------------------------------------------------ *)
(** ** The deferred re-weighting schedule *)

(** Entering [count] epochs from epoch [first] with rule 'drw': the loss
    unit is replaced by the one carrying the deferred vector exactly
    when the switch epoch lies among the epochs entered. *)
Lemma enter_epochs_drw {X} (dw : list xreal) (count : nat) :
  forall (self : FocalLossTrainer X) (first : Z),
    rule self = "drw" ->
    _drw_weight self = Some dw ->
    exists self',
      enter_epochs self first count = inr self'
      /\ rule self' = "drw"
      /\ _drw_weight self' = Some dw
      /\ drw_epochs self' = drw_epochs self
      /\ gamma self' = gamma self
      /\ model self' = model self
      /\ focal_fn self'
         = if ((first <=? drw_epochs self)
               && (drw_epochs self <? first + Z.of_nat count))%Z
           then FocalLoss_init (gamma self) (Some dw)
           else focal_fn self.
Proof.
  induction count as [| k IH]; intros self first Hr Hd.
  - exists self. repeat split; try assumption.
    destruct (Z.leb_spec first (drw_epochs self)),
             (Z.ltb_spec (drw_epochs self) (first + Z.of_nat 0));
      simpl; try reflexivity; lia.
  - cbn [enter_epochs]. unfold on_train_epoch_start.
    cbn [current_epoch drw_epochs rule _drw_weight gamma set_current_epoch].
    rewrite Hr, Hd. cbn [String.eqb Ascii.eqb Bool.eqb andb].
    destruct (Z.eqb_spec first (drw_epochs self)) as [E | NE]; cbn [andb bind ret].
    + destruct (IH (set_focal_fn (set_current_epoch self first)
                      (FocalLoss_init (gamma self) (Some dw)))
                   (first + 1)%Z Hr Hd)
        as (s' & Hs & Hr' & Hd' & He' & Hg' & Hm' & Hf').
      exists s'. cbn [drw_epochs gamma model focal_fn set_focal_fn
                      set_current_epoch] in *.
      repeat split; try assumption.
      rewrite Hf'.
      destruct (Z.leb_spec first (drw_epochs self)),
               (Z.ltb_spec (drw_epochs self) (first + Z.of_nat (S k)));
        simpl; try lia.
      now destruct (_ && _)%bool.
    + destruct (IH (set_current_epoch self first) (first + 1)%Z Hr Hd)
        as (s' & Hs & Hr' & Hd' & He' & Hg' & Hm' & Hf').
      exists s'. cbn [drw_epochs gamma model focal_fn set_current_epoch] in *.
      repeat split; try assumption.
      rewrite Hf'.
      destruct (Z.leb_spec first (drw_epochs self)),
               (Z.ltb_spec (drw_epochs self) (first + Z.of_nat (S k))),
               (Z.leb_spec (first + 1) (drw_epochs self)),
               (Z.ltb_spec (drw_epochs self) (first + 1 + Z.of_nat k));
        simpl; try reflexivity; lia.
Qed.

(** In a run from epoch 0 with rule 'drw' and a switch epoch that is not
    negative, the loss unit carries the uniform vector during every
    epoch below [drw_epochs] and the re-weighted vector from then on. *)
Lemma drw_schedule {X} (mdl : X -> Logits) (n : Z)
    (arg : class_frequency_arg X) (cf : list Z)
    (g beta : R) (d : Z) (e : nat) :
  derive_frequency n arg = inr cf ->
  (0 <= d)%Z ->
  exists tr te,
    FocalLossTrainer_init mdl n arg g "drw" beta d = inr tr
    /\ at_epoch tr e = inr te
    /\ model te = mdl
    /\ focal_fn te
       = FocalLoss_init g
           (if (Z.of_nat e <? d)%Z
            then Some (repeat (Fin 1) (Z.to_nat n))
            else Some (reweight beta cf n)).
Proof.
  intros Hcf Hd. rewrite (init_drw mdl n arg cf) by exact Hcf. eexists.
  destruct (enter_epochs_drw (reweight beta cf n) (S e)
              (mkTrainer X mdl n g arg "drw" beta d cf
                 (Some (repeat (Fin 1) (Z.to_nat n)))
                 (Some (reweight beta cf n))
                 (FocalLoss_init g (Some (repeat (Fin 1) (Z.to_nat n)))) 0%Z)
              0%Z eq_refl eq_refl)
    as (te & Hs & _ & _ & _ & _ & Hm & Hf).
  exists te. split; [reflexivity |]. split; [exact Hs |].
  split; [exact Hm |].
  rewrite Hf. cbn [drw_epochs gamma focal_fn].
  destruct (Z.leb_spec 0 d), (Z.ltb_spec d (0 + Z.of_nat (S e))),
           (Z.ltb_spec (Z.of_nat e) d); simpl; try reflexivity; lia.
Qed.

Lemma pow_decreasing (beta : R) (n m : nat) :
  0 < beta < 1 -> (n < m)%nat -> beta ^ m < beta ^ n.
Proof.
  intros Hb Hnm. replace m with (n + (m - n))%nat by lia.
  rewrite pow_add.
  assert (0 < beta ^ n) by (apply pow_lt; lra).
  assert (0 <= beta ^ (m - n) < 1) by (apply pow_below_1; [lra | lia]).
  nra.
Qed.

Lemma spec_raw_weight_decreasing (beta : R) (n m : Z) :
  0 < beta < 1 -> (0 < n < m)%Z ->
  spec_raw_weight beta m < spec_raw_weight beta n.
Proof.
  intros Hb Hnm. unfold spec_raw_weight.
  assert (Hn : 0 < spec_effective_num beta n)
    by (apply spec_effective_num_pos; [lra | lia]).
  assert (Hlt : spec_effective_num beta n < spec_effective_num beta m).
  { unfold spec_effective_num.
    assert (beta ^ Z.to_nat m < beta ^ Z.to_nat n)
      by (apply pow_decreasing; [lra | lia]).
    lra. }
  unfold Rdiv. apply Rmult_lt_compat_l; [lra |].
  apply Rinv_lt_contravar; [nra | exact Hlt].
Qed.

(** With frequencies [10, 100] the re-weighted vector is not uniform. *)
Lemma reweight_10_100_not_uniform :
  reweight (9999 / 10000) [10%Z; 100%Z] 2 <> [Fin 1; Fin 1].
Proof.
  rewrite reweight_positive; [| lra | repeat constructor; lia].
  unfold spec_weight. cbn [map sumR fold_right].
  intros H. injection H as H _.
  assert (Hb : 0 < 9999 / 10000 < 1) by lra.
  pose proof (spec_raw_weight_decreasing _ 10 100 Hb ltac:(lia)) as Hd.
  assert (H100 : 0 < spec_raw_weight (9999 / 10000) 100)
    by (apply spec_raw_weight_pos; [lra | lia]).
  set (a := spec_raw_weight (9999 / 10000) 10) in *.
  set (b := spec_raw_weight (9999 / 10000) 100) in *.
  assert (Hs : a * 2 = a + b).
  { replace (a * 2) with (a / (a + (b + 0)) * 2 * (a + (b + 0)))
      by (field; lra).
    rewrite H. lra. }
  lra.
Qed.

(** C2, on the code.  The claim has the loss of an identical batch
    differ between epoch 1 and epoch 2 when [drw_epochs] is 2 and the
    class frequencies are [10, 100].  The loss unit does carry the
    uniform vector at epoch 1 and the re-weighted vector, which is not
    uniform, at epoch 2; but [forward] never reads the vector, and every
    batch has the same loss at both epochs. *)
Theorem drw_loss_unchanged {X} (mdl : X -> Logits) (g : R) :
  exists tr t1 t2,
    FocalLossTrainer_init mdl 2 (FreqList [10%Z; 100%Z]) g "drw"
      (9999 / 10000) 2 = inr tr
    /\ at_epoch tr 1 = inr t1
    /\ at_epoch tr 2 = inr t2
    /\ fl_weight (focal_fn t1) = Some [Fin 1; Fin 1]
    /\ fl_weight (focal_fn t2) = Some (reweight (9999 / 10000) [10%Z; 100%Z] 2)
    /\ fl_weight (focal_fn t2) <> fl_weight (focal_fn t1)
    /\ forall batch, training_step t1 batch = training_step t2 batch.
Proof.
  destruct (drw_schedule mdl 2 (FreqList [10%Z; 100%Z]) [10%Z; 100%Z] g
              (9999 / 10000) 2 1 eq_refl ltac:(lia))
    as (tr & t1 & Hi & H1 & Hm1 & Hf1).
  destruct (drw_schedule mdl 2 (FreqList [10%Z; 100%Z]) [10%Z; 100%Z] g
              (9999 / 10000) 2 2 eq_refl ltac:(lia))
    as (tr' & t2 & Hi' & H2 & Hm2 & Hf2).
  rewrite Hi in Hi'. injection Hi' as <-.
  exists tr, t1, t2.
  cbn [Z.of_nat Pos.of_succ_nat Pos.succ Z.ltb Z.compare Pos.compare
       Pos.compare_cont] in Hf1, Hf2.
  rewrite Hf1, Hf2. cbn [FocalLoss_init fl_weight].
  repeat split; try assumption.
  - intros H. apply reweight_10_100_not_uniform.
    exact (f_equal (fun o => match o with Some l => l | None => [] end) H).
  - intros [x y]. unfold training_step. rewrite Hm1, Hm2, Hf1, Hf2.
    reflexivity.
Qed.

(* ------------------------------------------------------------------ *)
(** ** The scan of the data loader *)

Lemma list_update_length {A} (f : A -> A) (i : nat) (l : list A) :
  List.length (list_update f i l) = List.length l.
Proof.
  revert i. induction l as [| a l IH]; intros [| i]; simpl; auto.
Qed.

Lemma list_update_nth {A} (f : A -> A) (d : A) (l : list A) :
  forall i j, (i < List.length l)%nat ->
    nth j (list_update f i l) d
    = if Nat.eqb i j then f (nth j l d) else nth j l d.
Proof.
  induction l as [| a l IH]; intros i j Hi; simpl in Hi; [lia |].
  destruct i as [| i], j as [| j]; simpl; try reflexivity.
  apply IH. lia.
Qed.

Lemma count_labels_app {X} (n : Z) (pre rest : list (Batch X)) :
  forall freq,
    count_labels n (pre ++ rest) freq
    = freq' <- count_labels n pre freq ;; count_labels n rest freq'.
Proof.
  induction pre as [| [x y] pre IH]; intros freq; [reflexivity |].
  simpl. destruct (tensor_item y) as [e | v]; cbn [bind]; [reflexivity |].
  destruct (v <? n)%Z; [| reflexivity].
  destruct (list_incr freq v) as [e | freq1]; cbn [bind]; [reflexivity |].
  apply IH.
Qed.

(** Scanning batches of one in-range label each adds, to every class,
    the number of batches that carry it. *)
Lemma count_labels_acc {X} (n : Z) (batches : list (Batch X)) :
  Forall (single_label_in_range n) batches ->
  forall freq,
    Z.of_nat (List.length freq) = n ->
    exists freq',
      count_labels n batches freq = inr freq'
      /\ List.length freq' = List.length freq
      /\ forall c, (0 <= c < n)%Z ->
           nth (Z.to_nat c) freq' 0%Z
           = (nth (Z.to_nat c) freq 0%Z + Z.of_nat (label_count batches c))%Z.
Proof.
  induction 1 as [| [x y] batches (v & Hy & Hv) _ IH]; intros freq Hlen.
  - exists freq. repeat split. intros c _. unfold label_count. simpl. lia.
  - simpl in Hy. subst y. simpl.
    destruct (Z.ltb_spec v n); [| lia].
    unfold list_incr. destruct (Z.ltb_spec v 0); [lia |].
    destruct (Z.ltb_spec v 0); [lia |].
    destruct (Z.leb_spec (Z.of_nat (List.length freq)) v); [lia |].
    cbn [orb bind ret].
    destruct (IH (list_update Z.succ (Z.to_nat v) freq)) as (f' & Hc & Hl & Hn).
    { now rewrite list_update_length. }
    exists f'. split; [exact Hc |]. split.
    { now rewrite Hl, list_update_length. }
    intros c Hcr. rewrite (Hn c Hcr).
    rewrite list_update_nth by lia.
    unfold label_count. cbn [map snd count_occ].
    destruct (list_eq_dec Z.eq_dec [v] [c]) as [E | NE].
    + injection E as ->. rewrite Nat.eqb_refl. lia.
    + destruct (Nat.eqb_spec (Z.to_nat v) (Z.to_nat c)) as [E | _]; [| lia].
      exfalso. apply NE. f_equal. lia.
Qed.

(** X1.  A loader whose batches carry one label each, all of them in
    [0, num_classes), is scanned without error: the result has one
    entry per class, and the entry of a class is the number of batches
    labelled with it. *)
Theorem derive_frequency_counts {X} (n : Z) (batches : list (Batch X)) :
  Forall (single_label_in_range n) batches ->
  exists freq,
    derive_frequency n (DataLoader batches) = inr freq
    /\ List.length freq = Z.to_nat n
    /\ forall c, (0 <= c < n)%Z ->
         nth (Z.to_nat c) freq 0%Z = Z.of_nat (label_count batches c).
Proof.
  intros Hall. unfold derive_frequency.
  destruct (Z.le_gt_cases 0 n) as [Hn | Hn].
  - destruct (count_labels_acc n batches Hall (repeat 0%Z (Z.to_nat n)))
      as (f' & Hc & Hl & Hv).
    { rewrite repeat_length. lia. }
    exists f'. split; [exact Hc |]. split.
    { now rewrite Hl, repeat_length. }
    intros c Hcr. rewrite (Hv c Hcr), nth_repeat. lia.
  - destruct Hall as [| b batches (v & _ & Hv) _]; [| lia].
    exists (repeat 0%Z (Z.to_nat n)). repeat split.
    + apply repeat_length.
    + intros c Hc. lia.
Qed.

Lemma derive_frequency_counts_witness :
  exists freq,
    derive_frequency 2 (DataLoader [(tt, [0%Z]); (tt, [1%Z]); (tt, [0%Z])])
    = inr freq
    /\ List.length freq = Z.to_nat 2
    /\ forall c, (0 <= c < 2)%Z ->
         nth (Z.to_nat c) freq 0%Z
         = Z.of_nat (label_count [(tt, [0%Z]); (tt, [1%Z]); (tt, [0%Z])] c).
Proof.
  apply (derive_frequency_counts 2 [(tt, [0%Z]); (tt, [1%Z]); (tt, [0%Z])]).
  repeat constructor; eexists; (split; [reflexivity | lia]).
Defined.

(** X2.  The first label at or above [num_classes], after batches that
    are in range, stops the construction with the assertion error that
    names the label and the range, whatever the rule and whatever
    follows in the loader. *)
Theorem first_large_label_rejected {X} (model : X -> Logits) (n v : Z)
    (pre rest : list (Batch X)) (x : X) (g : R) (rule : string) (beta : R)
    (d : Z) :
  Forall (single_label_in_range n) pre ->
  (n <= v)%Z ->
  FocalLossTrainer_init model n (DataLoader (pre ++ (x, [v]) :: rest))
    g rule beta d
  = inl (AssertionError (label_message v n)).
Proof.
  intros Hpre Hv. unfold FocalLossTrainer_init, derive_frequency.
  rewrite count_labels_app.
  destruct (Z.le_gt_cases 0 n) as [Hn | Hn].
  - destruct (count_labels_acc n pre Hpre (repeat 0%Z (Z.to_nat n)))
      as (f' & Hc & _ & _).
    { rewrite repeat_length. lia. }
    rewrite Hc. cbn [bind].
    rewrite label_too_large_rejected by lia. reflexivity.
  - destruct Hpre as [| b pre (w & _ & Hw) _]; [| lia].
    change (count_labels n [] (repeat 0%Z (Z.to_nat n)))
      with (@inr exn _ (repeat 0%Z (Z.to_nat n))).
    cbn [bind].
    rewrite label_too_large_rejected by lia. reflexivity.
Qed.

Lemma first_large_label_rejected_witness :
  FocalLossTrainer_init (fun _ : unit => []) 2
    (DataLoader ([(tt, [1%Z])] ++ (tt, [2%Z]) :: [(tt, [0%Z])]))
    1 "reweight" (1 / 2) 160
  = inl (AssertionError
           "The label in class_frequency (tensor([2])) is out of range 0-1.").
Proof.
  apply (first_large_label_rejected (fun _ : unit => []) 2 2
           [(tt, [1%Z])] [(tt, [0%Z])] tt 1 "reweight" (1 / 2) 160).
  - repeat constructor. eexists. split; [reflexivity | lia].
  - lia.
Defined.

(** X3.  A loader batch whose label tensor does not hold exactly one
    label makes the construction fail, wherever it stands in the loader
    and whatever the rule. *)
Theorem multi_label_batch_rejected {X} (model : X -> Logits) (n : Z)
    (batches : list (Batch X)) (g : R) (rule : string) (beta : R) (d : Z) :
  Exists (fun b => List.length (snd b) <> 1%nat) batches ->
  exists e,
    FocalLossTrainer_init model n (DataLoader batches) g rule beta d = inl e.
Proof.
  intros Hex. unfold FocalLossTrainer_init, derive_frequency.
  assert (Hscan : forall freq, exists e, count_labels n batches freq = inl e).
  { induction batches as [| [x y] batches IH]; intros freq.
    - inversion Hex.
    - simpl. destruct y as [| v [| v' y']].
      + eexists. reflexivity.
      + cbn [tensor_item bind ret].
        destruct (v <? n)%Z; [| eexists; reflexivity].
        destruct (list_incr freq v) as [e | freq1]; cbn [bind];
          [eexists; reflexivity |].
        apply IH. inversion Hex as [? ? H0 | ? ? H0]; subst;
          [simpl in H0; contradiction | exact H0].
      + eexists. reflexivity. }
  destruct (Hscan (repeat 0%Z (Z.to_nat n))) as [e He].
  exists e. now rewrite He.
Qed.

Lemma multi_label_batch_rejected_witness :
  exists e,
    FocalLossTrainer_init (fun _ : unit => []) 2
      (DataLoader [(tt, [0%Z]); (tt, [0%Z; 1%Z])]) 1 "none" (1 / 2) 160
    = inl e.
Proof.
  apply (multi_label_batch_rejected (fun _ : unit => []) 2
           [(tt, [0%Z]); (tt, [0%Z; 1%Z])] 1 "none" (1 / 2) 160).
  apply Exists_cons_tl, Exists_cons_hd. simpl. discriminate.
Defined.

Lemma list_incr_length (l l' : list Z) (y : Z) :
  list_incr l y = inr l' -> List.length l' = List.length l.
Proof.
  unfold list_incr. destruct (_ || _)%bool; [discriminate |].
  intros H. injection H as <-. apply list_update_length.
Qed.

(** A scan that succeeds leaves the counter list at its length. *)
Lemma count_labels_length {X} (n : Z) (batches : list (Batch X)) :
  forall freq freq',
    count_labels n batches freq = inr freq' ->
    List.length freq' = List.length freq.
Proof.
  induction batches as [| [x y] batches IH]; intros freq freq' H.
  - injection H as <-. reflexivity.
  - simpl in H. destruct (tensor_item y) as [e | v]; cbn [bind] in H;
      [discriminate |].
    destruct (v <? n)%Z; [| discriminate].
    destruct (list_incr freq v) as [e | f1] eqn:Hi; cbn [bind] in H;
      [discriminate |].
    rewrite (IH _ _ H). now apply list_incr_length in Hi.
Qed.

(** X4.  A negative label down to [- num_classes] is not rejected: the
    scan treats the label [v] exactly as the label [v + num_classes],
    wherever it stands in the loader. *)
Theorem negative_label_aliases {X} (n v : Z) (pre rest : list (Batch X))
    (x : X) :
  (- n <= v < 0)%Z ->
  derive_frequency n (DataLoader (pre ++ (x, [v]) :: rest))
  = derive_frequency n (DataLoader (pre ++ (x, [(v + n)%Z]) :: rest)).
Proof.
  intros Hv. unfold derive_frequency. rewrite !count_labels_app.
  destruct (count_labels n pre (repeat 0%Z (Z.to_nat n))) as [e | f'] eqn:Hp;
    cbn [bind]; [reflexivity |].
  assert (Hl : Z.of_nat (List.length f') = n).
  { rewrite (count_labels_length _ _ _ _ Hp), repeat_length. lia. }
  cbn [count_labels tensor_item bind ret].
  destruct (Z.ltb_spec v n); [| lia].
  destruct (Z.ltb_spec (v + n) n); [| lia].
  replace (list_incr f' (v + n)) with (list_incr f' v); [reflexivity |].
  unfold list_incr. rewrite Hl.
  assert (E1 : (v <? 0)%Z = true) by (apply Z.ltb_lt; lia).
  assert (E2 : (v + n <? 0)%Z = false) by (apply Z.ltb_ge; lia).
  rewrite E1. cbv beta iota zeta. rewrite !E2. reflexivity.
Qed.

Lemma negative_label_aliases_witness :
  derive_frequency 3 (DataLoader ([(tt, [0%Z])] ++ (tt, [(-1)%Z]) :: []))
  = derive_frequency 3 (DataLoader ([(tt, [0%Z])] ++ (tt, [2%Z]) :: [])).
Proof.
  apply (negative_label_aliases 3 (-1) [(tt, [0%Z])] [] tt). lia.
Defined.

(** X5.  A label below [- num_classes], after batches that are in range,
    stops the construction with the bare list error
    [list index out of range], which names neither the label nor the
    range. *)
Theorem very_negative_label_index_error {X} (model : X -> Logits) (n v : Z)
    (pre rest : list (Batch X)) (x : X) (g : R) (rule : string) (beta : R)
    (d : Z) :
  Forall (single_label_in_range n) pre ->
  (0 <= n)%Z ->
  (v < - n)%Z ->
  FocalLossTrainer_init model n (DataLoader (pre ++ (x, [v]) :: rest))
    g rule beta d
  = inl (IndexError "list index out of range").
Proof.
  intros Hpre Hn Hv. unfold FocalLossTrainer_init, derive_frequency.
  rewrite count_labels_app.
  destruct (count_labels_acc n pre Hpre (repeat 0%Z (Z.to_nat n)))
    as (f' & Hc & Hl & _).
  { rewrite repeat_length. lia. }
  rewrite Hc. cbn [bind].
  rewrite negative_label_wraps by lia.
  rewrite Hl, repeat_length.
  destruct (Z.ltb_spec (v + Z.of_nat (Z.to_nat n)) 0); [reflexivity | lia].
Qed.

Lemma very_negative_label_index_error_witness :
  FocalLossTrainer_init (fun _ : unit => []) 2
    (DataLoader ([(tt, [1%Z])] ++ (tt, [(-3)%Z]) :: [])) 1 "none" (1 / 2) 160
  = inl (IndexError "list index out of range").
Proof.
  apply (very_negative_label_index_error (fun _ : unit => []) 2 (-3)
           [(tt, [1%Z])] [] tt 1 "none" (1 / 2) 160).
  - repeat constructor. eexists. split; [reflexivity | lia].
  - lia.
  - lia.
Defined.




(* ------------------------------------------------------------------ *)
(** ** More on the epoch hook *)

(** X7.  For the rules other than 'drw' the epoch hook changes nothing:
    entering any number of epochs from any first epoch leaves the
    trainer as it is, up to the epoch counter that the host sets. *)
Theorem non_drw_never_swaps {X} (self : FocalLossTrainer X) (count : nat) :
  rule self <> "drw" ->
  forall first,
    enter_epochs self first count
    = inr (match count with
           | O => self
           | S k => set_current_epoch self (first + Z.of_nat k)
           end).
Proof.
  intros Hr. apply String.eqb_neq in Hr.
  revert self Hr. induction count as [| k IH]; intros self Hr first;
    [reflexivity |].
  cbn [enter_epochs]. unfold on_train_epoch_start.
  cbn [current_epoch drw_epochs rule set_current_epoch].
  rewrite Hr, andb_false_r. cbn [bind ret].
  rewrite IH by exact Hr.
  destruct k as [| k']; cbn [set_current_epoch model num_classes gamma
    class_frequency rule beta_reweight drw_epochs _class_frequency _weight
    _drw_weight focal_fn].
  - unfold set_current_epoch. do 2 f_equal. lia.
  - unfold set_current_epoch. do 2 f_equal. lia.
Qed.

Lemma non_drw_never_swaps_witness :
  enter_epochs
    (mkTrainer unit (fun _ => []) 2 1 (FreqList [10%Z; 100%Z]) "none"
       (1 / 2) 0 [10%Z; 100%Z] None None (FocalLoss_init 1 None) 0%Z) 0 3
  = inr (mkTrainer unit (fun _ => []) 2 1 (FreqList [10%Z; 100%Z]) "none"
           (1 / 2) 0 [10%Z; 100%Z] None None (FocalLoss_init 1 None) 2%Z).
Proof.
  apply (non_drw_never_swaps
           (mkTrainer unit (fun _ => []) 2 1 (FreqList [10%Z; 100%Z]) "none"
              (1 / 2) 0 [10%Z; 100%Z] None None (FocalLoss_init 1 None) 0%Z)
           3).
  simpl. discriminate.
Defined.

(** X8.  With rule 'drw', in a run from epoch 0 and a switch epoch that
    is not negative: during every epoch below [drw_epochs] the loss
    unit is the one the constructor built, with the uniform vector, and
    during every epoch from [drw_epochs] on it is a unit with the
    deferred vector, the trainer's gamma and reduction 'mean'. *)
Theorem drw_unit_by_epoch {X} (mdl : X -> Logits) (n : Z)
    (arg : class_frequency_arg X) (cf : list Z) (g beta : R) (d : Z)
    (e : nat) :
  derive_frequency n arg = inr cf ->
  (0 <= d)%Z ->
  exists tr te,
    FocalLossTrainer_init mdl n arg g "drw" beta d = inr tr
    /\ at_epoch tr e = inr te
    /\ ((Z.of_nat e < d)%Z ->
        focal_fn te = focal_fn tr
        /\ fl_weight (focal_fn te) = Some (repeat (Fin 1) (Z.to_nat n)))
    /\ ((d <= Z.of_nat e)%Z ->
        focal_fn te = mkFocalLoss g (Some (reweight beta cf n)) "mean").
Proof.
  intros Hcf Hd. rewrite (init_drw mdl n arg cf) by exact Hcf. eexists.
  destruct (enter_epochs_drw (reweight beta cf n) (S e)
              (mkTrainer X mdl n g arg "drw" beta d cf
                 (Some (repeat (Fin 1) (Z.to_nat n)))
                 (Some (reweight beta cf n))
                 (FocalLoss_init g (Some (repeat (Fin 1) (Z.to_nat n)))) 0%Z)
              0%Z eq_refl eq_refl)
    as (te & Hs & _ & _ & _ & _ & _ & Hf).
  exists te. split; [reflexivity |]. split; [exact Hs |].
  cbn [drw_epochs gamma focal_fn] in Hf. rewrite Hf.
  destruct (Z.leb_spec 0 d); [| lia].
  destruct (Z.ltb_spec d (0 + Z.of_nat (S e))); cbn [andb].
  - split; [lia |]. intros _. reflexivity.
  - split; [| lia]. intros _. split; reflexivity.
Qed.

Lemma drw_unit_by_epoch_witness :
  exists tr te,
    FocalLossTrainer_init (fun _ : unit => []) 2 (FreqList [10%Z; 100%Z]) 1
      "drw" (1 / 2) 2 = inr tr
    /\ at_epoch tr 5 = inr te
    /\ ((Z.of_nat 5 < 2)%Z ->
        focal_fn te = focal_fn tr
        /\ fl_weight (focal_fn te) = Some (repeat (Fin 1) (Z.to_nat 2)))
    /\ ((2 <= Z.of_nat 5)%Z ->
        focal_fn te
        = mkFocalLoss 1 (Some (reweight (1 / 2) [10%Z; 100%Z] 2)) "mean").
Proof.
  apply (drw_unit_by_epoch (fun _ : unit => []) 2 (FreqList [10%Z; 100%Z])
           [10%Z; 100%Z] 1 (1 / 2) 2 5).
  - reflexivity.
  - lia.
Defined.

(** X9.  The switch fires only when the epoch counter equals
    [drw_epochs]: a run with rule 'drw' whose epochs do not include the
    switch epoch (a negative [drw_epochs], a run that ends before it, a
    run resumed after it) keeps the loss unit it started with. *)
Theorem drw_switch_missed {X} (self : FocalLossTrainer X) (dw : list xreal)
    (first : Z) (count : nat) :
  rule self = "drw" ->
  _drw_weight self = Some dw ->
  (drw_epochs self < first \/ first + Z.of_nat count <= drw_epochs self)%Z ->
  exists self',
    enter_epochs self first count = inr self'
    /\ focal_fn self' = focal_fn self.
Proof.
  intros Hr Hd Hmiss.
  destruct (enter_epochs_drw dw count self first Hr Hd)
    as (s' & Hs & _ & _ & _ & _ & _ & Hf).
  exists s'. split; [exact Hs |]. rewrite Hf.
  destruct (Z.leb_spec first (drw_epochs self)),
           (Z.ltb_spec (drw_epochs self) (first + Z.of_nat count));
    cbn [andb]; try reflexivity; lia.
Qed.

Lemma drw_switch_missed_witness :
  exists self',
    enter_epochs
      (mkTrainer unit (fun _ => []) 2 1 (FreqList [10%Z; 100%Z]) "drw"
         (1 / 2) 2 [10%Z; 100%Z] (Some [Fin 1; Fin 1]) (Some [Fin 3; Fin 4])
         (FocalLoss_init 1 (Some [Fin 1; Fin 1])) 0%Z) 3 10
    = inr self'
    /\ focal_fn self' = FocalLoss_init 1 (Some [Fin 1; Fin 1]).
Proof.
  apply (drw_switch_missed
           (mkTrainer unit (fun _ => []) 2 1 (FreqList [10%Z; 100%Z]) "drw"
              (1 / 2) 2 [10%Z; 100%Z] (Some [Fin 1; Fin 1])
              (Some [Fin 3; Fin 4])
              (FocalLoss_init 1 (Some [Fin 1; Fin 1])) 0%Z)
           [Fin 3; Fin 4] 3 10).
  - reflexivity.
  - reflexivity.
  - left. simpl. lia.
Defined.

(* ------------------------------------------------------------------ *)
(** ** The focal loss on well-formed batches *)

Lemma mapM_map {A B} (f : A -> result B) (g : A -> B) (l : list A) :
  (forall a, In a l -> f a = inr (g a)) -> mapM f l = inr (map g l).
Proof.
  induction l as [| a l IH]; intros H; [reflexivity |].
  simpl. rewrite (H a) by now left. cbn [bind].
  rewrite IH by (intros b Hb; apply H; now right). reflexivity.
Qed.

Lemma labels_in_range_length (input : Logits) (target : Labels) :
  labels_in_range input target -> List.length input = List.length target.
Proof. induction 1; simpl; congruence. Qed.

Lemma labels_in_range_combine (input : Logits) (target : Labels) :
  labels_in_range input target ->
  forall s, In s (combine input target) ->
    (0 <= snd s < Z.of_nat (List.length (fst s)))%Z.
Proof.
  induction 1 as [| row t input target Hrt _ IH]; intros s Hs;
    [destruct Hs |].
  destruct Hs as [<- | Hs]; [exact Hrt | now apply IH].
Qed.

Lemma ce_sample_in_range (s : list R * Z) :
  (0 <= snd s < Z.of_nat (List.length (fst s)))%Z ->
  ce_sample None s = inr (Fin (sample_ce s), Fin 1).
Proof.
  destruct s as [row t]. cbn [fst snd]. intros Ht. unfold ce_sample, nll.
  destruct (Z.eqb_spec t ignore_index) as [E | _];
    [unfold ignore_index in E; lia |].
  destruct (Z.ltb_spec t 0); [lia |].
  destruct (Z.leb_spec (Z.of_nat (List.length row)) t); [lia |].
  cbn [orb bind ret class_weight]. rewrite xmul_1_l. reflexivity.
Qed.

Lemma cross_entropy_in_range (input : Logits) (target : Labels) :
  labels_in_range input target ->
  cross_entropy input target None "none"
  = inr (Vec (map (fun s => Fin (sample_ce s)) (combine input target))).
Proof.
  intros Hwf. unfold cross_entropy.
  cbn [String.eqb Ascii.eqb Bool.eqb orb negb].
  rewrite (labels_in_range_length _ _ Hwf), Nat.eqb_refl. cbn [negb].
  rewrite (mapM_map _ (fun s => (Fin (sample_ce s), Fin 1))).
  - cbn [bind ret]. now rewrite map_map.
  - intros s Hs. apply ce_sample_in_range.
    now apply (labels_in_range_combine input target).
Qed.

Lemma sumR_exp_bound (row : list R) (i : nat) :
  (i < List.length row)%nat ->
  0 < exp (nth i row 0) <= sumR (map exp row).
Proof.
  revert i. induction row as [| x row IH]; intros i Hi; simpl in Hi; [lia |].
  assert (Hnn : 0 <= sumR (map exp row)).
  { clear. induction row as [| y row IH]; simpl; [lra |].
    pose proof (exp_pos y). lra. }
  pose proof (exp_pos x). destruct i as [| i]; simpl.
  - lra.
  - destruct (IH i) as [H1 H2]; [lia |]. lra.
Qed.

Lemma softmax_range (s : list R * Z) :
  (0 <= snd s < Z.of_nat (List.length (fst s)))%Z ->
  0 < softmax (fst s) (snd s) <= 1.
Proof.
  intros Ht. unfold softmax.
  destruct (sumR_exp_bound (fst s) (Z.to_nat (snd s))) as [H1 H2]; [lia |].
  split.
  - apply Rdiv_lt_0_compat; lra.
  - apply (Rmult_le_reg_r (sumR (map exp (fst s)))); [lra |].
    unfold Rdiv. rewrite Rmult_assoc, Rinv_l by lra. lra.
Qed.

Lemma exp_neg_sample_ce (s : list R * Z) :
  (0 <= snd s < Z.of_nat (List.length (fst s)))%Z ->
  exp (- sample_ce s) = softmax (fst s) (snd s).
Proof.
  intros Ht. unfold sample_ce, softmax.
  destruct (sumR_exp_bound (fst s) (Z.to_nat (snd s))) as [H1 H2]; [lia |].
  replace (- (ln (sumR (map exp (fst s))) - nth (Z.to_nat (snd s)) (fst s) 0))
    with (nth (Z.to_nat (snd s)) (fst s) 0 + - ln (sumR (map exp (fst s))))
    by lra.
  rewrite exp_plus, exp_Ropp, exp_ln by lra. reflexivity.
Qed.

Lemma sample_ce_softmax (s : list R * Z) :
  (0 <= snd s < Z.of_nat (List.length (fst s)))%Z ->
  sample_ce s = - ln (softmax (fst s) (snd s)).
Proof.
  intros Ht. rewrite <- (exp_neg_sample_ce s Ht), ln_exp. lra.
Qed.

Lemma sample_ce_nonneg (s : list R * Z) :
  (0 <= snd s < Z.of_nat (List.length (fst s)))%Z -> 0 <= sample_ce s.
Proof.
  intros Ht. rewrite (sample_ce_softmax s Ht).
  destruct (softmax_range s Ht) as [H0 H1].
  destruct (Rle_lt_or_eq_dec _ _ H1) as [Hlt | ->].
  - pose proof (ln_increasing _ _ H0 Hlt) as H. rewrite ln_1 in H. lra.
  - rewrite ln_1. lra.
Qed.

(** On a batch whose labels are classes of their rows, the per-sample
    loss of [forward] is [(1 - p) ** gamma * (- ln p)] with [p] the
    softmax probability of the label. *)
Lemma forward_in_range (self : FocalLoss) (input : Logits) (target : Labels) :
  labels_in_range input target ->
  forward self input target
  = inr (reduce (fl_reduction self)
           (Vec (map (fun s =>
                        xmul (xpow (Fin (1 - softmax (fst s) (snd s)))
                                (fl_gamma self))
                             (Fin (- ln (softmax (fst s) (snd s)))))
                     (combine input target)))).
Proof.
  intros Hwf. rewrite forward_unfold, (cross_entropy_in_range _ _ Hwf).
  cbn [bind ret tensor_map]. do 3 apply f_equal.
  rewrite map_map. apply map_ext_in. intros s Hs.
  pose proof (labels_in_range_combine _ _ Hwf s Hs) as Ht.
  cbn [xneg xexp xsub xadd].
  rewrite (exp_neg_sample_ce s Ht), <- (sample_ce_softmax s Ht).
  reflexivity.
Qed.

(** X10.  On a batch whose labels are classes of their rows of logits,
    the unreduced output of [forward] is, sample by sample, the focal
    loss [(1 - p) ** gamma * (- ln p)] of the softmax probability [p]
    that the logits give to the label. *)
Theorem forward_is_focal_of_softmax (gamma : R) (w : option (list xreal))
    (input : Logits) (target : Labels) :
  labels_in_range input target ->
  forward (mkFocalLoss gamma w "none") input target
  = inr (Vec (map (fun s =>
                     xmul (xpow (Fin (1 - softmax (fst s) (snd s))) gamma)
                          (Fin (- ln (softmax (fst s) (snd s)))))
                  (combine input target))).
Proof. intros Hwf. now rewrite (forward_in_range _ _ _ Hwf). Qed.

Lemma forward_is_focal_of_softmax_witness :
  forward (mkFocalLoss 2 None "none") [[0; 1]; [3; 2]] [1%Z; 0%Z]
  = inr (Vec (map (fun s =>
                     xmul (xpow (Fin (1 - softmax (fst s) (snd s))) 2)
                          (Fin (- ln (softmax (fst s) (snd s)))))
                  (combine [[0; 1]; [3; 2]] [1%Z; 0%Z]))).
Proof.
  apply (forward_is_focal_of_softmax 2 None [[0; 1]; [3; 2]] [1%Z; 0%Z]).
  repeat constructor; simpl; lia.
Defined.

Lemma exp_le (x y : R) : x <= y -> exp x <= exp y.
Proof.
  intros [H | ->]; [left; now apply exp_increasing | right; reflexivity].
Qed.

Lemma ln_nonpos (q : R) : 0 < q <= 1 -> ln q <= 0.
Proof.
  intros [H0 [H1 | ->]].
  - pose proof (ln_increasing _ _ H0 H1) as H. rewrite ln_1 in H. lra.
  - rewrite ln_1. lra.
Qed.

Lemma xpow_modulating (q gamma : R) :
  0 <= q -> 0 <= gamma -> xpow (Fin q) gamma = Fin (modulating q gamma).
Proof.
  intros Hq Hg. unfold xpow, modulating.
  destruct (Req_dec_T gamma 0); [reflexivity |].
  destruct (Rlt_dec 0 q); [reflexivity |].
  destruct (Req_dec_T q 0); [| lra].
  destruct (Rlt_dec 0 gamma); [reflexivity | lra].
Qed.

Lemma modulating_range (q gamma : R) :
  0 <= q <= 1 -> 0 <= gamma -> 0 <= modulating q gamma <= 1.
Proof.
  intros Hq Hg. unfold modulating.
  destruct (Req_dec_T gamma 0); [lra |].
  destruct (Rlt_dec 0 q) as [Hpos | _]; [| lra].
  unfold Rpower. split; [left; apply exp_pos |].
  rewrite <- exp_0. apply exp_le.
  assert (ln q <= 0) by (apply ln_nonpos; lra). nra.
Qed.

Lemma modulating_mono (q g1 g2 : R) :
  0 <= q <= 1 -> 0 <= g1 <= g2 -> modulating q g2 <= modulating q g1.
Proof.
  intros Hq Hg.
  pose proof (modulating_range q g2 Hq ltac:(lra)) as Hr.
  unfold modulating in *.
  destruct (Req_dec_T g2 0), (Req_dec_T g1 0); try lra.
  destruct (Rlt_dec 0 q) as [Hpos | _]; [| lra].
  unfold Rpower. apply exp_le.
  assert (ln q <= 0) by (apply ln_nonpos; lra). nra.
Qed.

Lemma focal_value_range (gamma : R) (s : list R * Z) :
  0 <= gamma ->
  (0 <= snd s < Z.of_nat (List.length (fst s)))%Z ->
  0 <= focal_value gamma s <= sample_ce s.
Proof.
  intros Hg Ht. unfold focal_value.
  pose proof (softmax_range s Ht) as Hp.
  pose proof (sample_ce_nonneg s Ht) as Hc.
  pose proof (modulating_range (1 - softmax (fst s) (snd s)) gamma
                ltac:(lra) Hg) as Hm.
  nra.
Qed.

Lemma focal_value_mono (g1 g2 : R) (s : list R * Z) :
  0 <= g1 <= g2 ->
  (0 <= snd s < Z.of_nat (List.length (fst s)))%Z ->
  focal_value g2 s <= focal_value g1 s.
Proof.
  intros Hg Ht. unfold focal_value.
  pose proof (softmax_range s Ht) as Hp.
  pose proof (sample_ce_nonneg s Ht) as Hc.
  pose proof (modulating_mono (1 - softmax (fst s) (snd s)) g1 g2
                ltac:(lra) Hg) as Hm.
  nra.
Qed.

(** With a gamma that is not negative the per-sample losses are finite
    real numbers. *)
Lemma forward_focal_value (self : FocalLoss) (input : Logits)
    (target : Labels) :
  0 <= fl_gamma self ->
  labels_in_range input target ->
  forward self input target
  = inr (reduce (fl_reduction self)
           (Vec (map Fin (map (focal_value (fl_gamma self))
                            (combine input target))))).
Proof.
  intros Hg Hwf. rewrite (forward_in_range _ _ _ Hwf).
  do 3 apply f_equal. rewrite map_map. apply map_ext_in. intros s Hs.
  pose proof (labels_in_range_combine _ _ Hwf s Hs) as Ht.
  pose proof (softmax_range s Ht) as Hp.
  rewrite xpow_modulating by lra.
  rewrite <- (sample_ce_softmax s Ht). reflexivity.
Qed.

Lemma sumR_map_le {A} (f g : A -> R) (l : list A) :
  (forall a, In a l -> f a <= g a) -> sumR (map f l) <= sumR (map g l).
Proof.
  induction l as [| a l IH]; intros H; simpl; [lra |].
  pose proof (H a (or_introl eq_refl)).
  assert (sumR (map f l) <= sumR (map g l))
    by (apply IH; intros b Hb; apply H; now right).
  lra.
Qed.

(** X11.  For a gamma that is not negative and a batch whose labels are
    classes of their rows, the focal loss of every sample is a finite
    number between zero and the cross-entropy of that sample; so are
    the outputs under 'sum' and, for a batch that is not empty, under
    'mean'. *)
Theorem focal_between_zero_and_cross_entropy (gamma : R)
    (w : option (list xreal)) (input : Logits) (target : Labels) :
  0 <= gamma ->
  labels_in_range input target ->
  let ss := combine input target in
  forward (mkFocalLoss gamma w "none") input target
  = inr (Vec (map Fin (map (focal_value gamma) ss)))
  /\ cross_entropy input target None "none"
     = inr (Vec (map Fin (map sample_ce ss)))
  /\ (forall s, In s ss -> 0 <= focal_value gamma s <= sample_ce s)
  /\ forward (mkFocalLoss gamma w "sum") input target
     = inr (Scalar (Fin (sumR (map (focal_value gamma) ss))))
  /\ 0 <= sumR (map (focal_value gamma) ss) <= sumR (map sample_ce ss)
  /\ (input <> [] ->
      forward (mkFocalLoss gamma w "mean") input target
      = inr (Scalar (Fin (spec_mean (map (focal_value gamma) ss))))
      /\ 0 <= spec_mean (map (focal_value gamma) ss)
           <= spec_mean (map sample_ce ss)).
Proof.
  intros Hg Hwf ss.
  assert (Hr : forall s, In s ss -> 0 <= focal_value gamma s <= sample_ce s).
  { intros s Hs. apply focal_value_range; [exact Hg |].
    now apply (labels_in_range_combine input target). }
  assert (Hsum : 0 <= sumR (map (focal_value gamma) ss)
                   <= sumR (map sample_ce ss)).
  { split.
    - replace 0 with (sumR (map (fun _ : list R * Z => 0) ss)).
      + apply sumR_map_le. intros s Hs. now apply Hr.
      + clear. induction ss; simpl; lra.
    - apply sumR_map_le. intros s Hs. now apply Hr. }
  split; [| split; [| split; [exact Hr | split; [| split; [exact Hsum |]]]]].
  - now rewrite forward_focal_value.
  - rewrite (cross_entropy_in_range _ _ Hwf). now rewrite map_map.
  - rewrite forward_focal_value by assumption.
    unfold reduce. cbn [fl_reduction String.eqb Ascii.eqb Bool.eqb tensor_sum].
    now rewrite xsum_Fin.
  - intros Hne. subst ss.
    assert (Hlen : 0 < INR (List.length (combine input target))).
    { apply lt_0_INR. rewrite length_combine.
      rewrite <- (labels_in_range_length _ _ Hwf), Nat.min_id.
      destruct input; [contradiction | simpl; lia]. }
    split.
    + rewrite forward_focal_value by assumption.
      unfold reduce.
      cbn [fl_reduction String.eqb Ascii.eqb Bool.eqb tensor_mean].
      rewrite xsum_Fin, !length_map, xdiv_Fin by lra.
      unfold spec_mean. now rewrite length_map.
    + unfold spec_mean. rewrite !length_map. unfold Rdiv.
      pose proof (Rinv_0_lt_compat _ Hlen). nra.
Qed.

Lemma focal_between_zero_and_cross_entropy_witness :
  forward (mkFocalLoss 2 None "sum") [[0; 1]; [3; 2]] [1%Z; 0%Z]
  = inr (Scalar (Fin (sumR (map (focal_value 2)
                              (combine [[0; 1]; [3; 2]] [1%Z; 0%Z]))))).
Proof.
  apply (focal_between_zero_and_cross_entropy 2 None
           [[0; 1]; [3; 2]] [1%Z; 0%Z]).
  - lra.
  - repeat constructor; simpl; lia.
Defined.

(** X12.  A larger gamma never gives a larger loss: for
    [0 <= gamma1 <= gamma2] and a batch whose labels are classes of
    their rows, every per-sample loss under [gamma2] is at most the one
    under [gamma1], and so is the summed loss. *)
Theorem focal_decreasing_in_gamma (g1 g2 : R) (w : option (list xreal))
    (input : Logits) (target : Labels) :
  0 <= g1 <= g2 ->
  labels_in_range input target ->
  let ss := combine input target in
  forward (mkFocalLoss g1 w "none") input target
  = inr (Vec (map Fin (map (focal_value g1) ss)))
  /\ forward (mkFocalLoss g2 w "none") input target
     = inr (Vec (map Fin (map (focal_value g2) ss)))
  /\ (forall s, In s ss -> focal_value g2 s <= focal_value g1 s)
  /\ forward (mkFocalLoss g1 w "sum") input target
     = inr (Scalar (Fin (sumR (map (focal_value g1) ss))))
  /\ forward (mkFocalLoss g2 w "sum") input target
     = inr (Scalar (Fin (sumR (map (focal_value g2) ss))))
  /\ sumR (map (focal_value g2) ss) <= sumR (map (focal_value g1) ss).
Proof.
  intros Hg Hwf ss.
  assert (Hm : forall s, In s ss -> focal_value g2 s <= focal_value g1 s).
  { intros s Hs. apply focal_value_mono; [exact Hg |].
    now apply (labels_in_range_combine input target). }
  repeat split.
  - rewrite forward_focal_value; [reflexivity | cbn; lra | exact Hwf].
  - rewrite forward_focal_value; [reflexivity | cbn; lra | exact Hwf].
  - exact Hm.
  - rewrite forward_focal_value; [| cbn; lra | exact Hwf].
    unfold reduce. cbn [fl_reduction String.eqb Ascii.eqb Bool.eqb tensor_sum].
    now rewrite xsum_Fin.
  - rewrite forward_focal_value; [| cbn; lra | exact Hwf].
    unfold reduce. cbn [fl_reduction String.eqb Ascii.eqb Bool.eqb tensor_sum].
    now rewrite xsum_Fin.
  - apply sumR_map_le. exact Hm.
Qed.

Lemma focal_decreasing_in_gamma_witness :
  sumR (map (focal_value 2) (combine [[0; 1]; [3; 2]] [1%Z; 0%Z]))
  <= sumR (map (focal_value (1 / 2)) (combine [[0; 1]; [3; 2]] [1%Z; 0%Z])).
Proof.
  apply (focal_decreasing_in_gamma (1 / 2) 2 None
           [[0; 1]; [3; 2]] [1%Z; 0%Z]).
  - lra.
  - repeat constructor; simpl; lia.
Defined.

Lemma softmax_single (x : R) : softmax [x] 0 = 1.
Proof.
  unfold softmax. simpl. pose proof (exp_pos x). field. lra.
Qed.

Lemma single_class_in_range (xs : list R) :
  labels_in_range (map (fun x => [x]) xs) (repeat 0%Z (List.length xs)).
Proof.
  induction xs as [| x xs IH]; simpl; constructor; [simpl; lia | exact IH].
Qed.

(** X13.  With a negative gamma the loss is not finite where the model
    is certain: a sample whose row of logits has a single class has
    cross-entropy zero, probability one, the modulating factor
    [0 ** gamma] is infinite, and the loss is not-a-number. *)
Theorem negative_gamma_single_class (gamma : R) (w : option (list xreal))
    (xs : list R) :
  gamma < 0 ->
  forward (mkFocalLoss gamma w "none") (map (fun x => [x]) xs)
    (repeat 0%Z (List.length xs))
  = inr (Vec (repeat NaN (List.length xs))).
Proof.
  intros Hg. rewrite (forward_in_range _ _ _ (single_class_in_range xs)).
  unfold reduce. cbn [fl_reduction fl_gamma String.eqb Ascii.eqb Bool.eqb].
  do 2 apply f_equal.
  induction xs as [| x xs IH]; [reflexivity |].
  cbn [map List.length repeat combine fst snd]. rewrite IH. f_equal.
  rewrite softmax_single, ln_1.
  replace (1 - 1) with 0 by lra. replace (- 0) with 0 by lra.
  unfold xpow.
  destruct (Req_dec_T gamma 0); [lra |].
  destruct (Rlt_dec 0 0); [lra |].
  destruct (Req_dec_T 0 0); [| lra].
  destruct (Rlt_dec 0 gamma); [lra |].
  cbn [xmul]. now rewrite sgn_zero.
Qed.

Lemma negative_gamma_single_class_witness :
  forward (mkFocalLoss (-1) None "none") (map (fun x => [x]) [3; 5])
    (repeat 0%Z (List.length [3; 5]))
  = inr (Vec (repeat NaN (List.length [3; 5]))).
Proof.
  apply (negative_gamma_single_class (-1) None [3; 5]). lra.
Defined.

(** X14.  On an empty batch [forward] raises nothing: reduction 'mean'
    returns not-a-number (zero divided by zero samples), 'sum' returns
    zero, and every other reduction the empty vector. *)
Theorem forward_empty_batch (gamma : R) (w : option (list xreal)) :
  forward (mkFocalLoss gamma w "mean") [] [] = inr (Scalar NaN)
  /\ forward (mkFocalLoss gamma w "sum") [] [] = inr (Scalar (Fin 0))
  /\ forall r, r <> "mean" -> r <> "sum" ->
       forward (mkFocalLoss gamma w r) [] [] = inr (Vec []).
Proof.
  split; [| split].
  - rewrite forward_unfold. cbn.
    destruct (Req_dec_T 0 0); [| lra]. now rewrite sgn_zero.
  - reflexivity.
  - intros r Hm Hs. rewrite forward_unfold.
    cbn [fl_reduction fl_gamma cross_entropy String.eqb Ascii.eqb Bool.eqb
         orb negb List.length Nat.eqb combine mapM bind ret map tensor_map].
    now rewrite reduce_other.
Qed.

(* ------------------------------------------------------------------ *)
(** ** More on the effective-number weights *)



Lemma raw_weight_beta_1 (n : Z) : raw_weight 1 n = NaN.
Proof.
  unfold raw_weight, np_power.
  destruct (0 <=? n)%Z.
  - rewrite pow1. cbn [xsub xneg xadd xdiv].
    destruct (Req_dec_T (1 + - (1)) 0); [| lra].
    replace (1 - 1) with 0 by lra. now rewrite sgn_zero.
  - destruct (Req_dec_T 1 0); [lra |].
    rewrite pow1, Rinv_1. cbn [xsub xneg xadd xdiv].
    destruct (Req_dec_T (1 + - (1)) 0); [| lra].
    replace (1 - 1) with 0 by lra. now rewrite sgn_zero.
Qed.

(** X16.  With [beta_reweight] equal to 1 every effective number is
    zero and every raw weight is zero divided by zero: the construction
    still succeeds, and every entry of the re-weighted vector is
    not-a-number, whatever the frequencies. *)
Theorem reweight_beta_1_all_nan {X} (mdl : X -> Logits) (n : Z)
    (arg : class_frequency_arg X) (cf : list Z) (g : R) (d : Z) :
  derive_frequency n arg = inr cf ->
  reweight 1 cf n = repeat NaN (List.length cf)
  /\ exists tr,
       FocalLossTrainer_init mdl n arg g "reweight" 1 d = inr tr
       /\ _weight tr = Some (repeat NaN (List.length cf)).
Proof.
  intros Hcf.
  assert (Hw : reweight 1 cf n = repeat NaN (List.length cf)).
  { rewrite reweight_raw.
    rewrite (map_const (raw_weight 1) NaN cf)
      by (intros; apply raw_weight_beta_1).
    rewrite (map_const _ NaN); [now rewrite repeat_length |].
    intros a Ha. apply repeat_spec in Ha. subst a. reflexivity. }
  split; [exact Hw |].
  rewrite (init_reweight mdl n arg cf) by exact Hcf.
  eexists. split; [reflexivity |]. cbn [_weight]. now rewrite Hw.
Qed.

Lemma reweight_beta_1_all_nan_witness :
  reweight 1 [10%Z; 100%Z] 2 = repeat NaN (List.length [10%Z; 100%Z]).
Proof.
  apply (reweight_beta_1_all_nan (fun _ : unit => []) 2
           (FreqList [10%Z; 100%Z]) [10%Z; 100%Z] 1 160).
  reflexivity.
Defined.

Lemma spec_raw_weight_beta_0 (m : Z) : (0 < m)%Z -> spec_raw_weight 0 m = 1.
Proof.
  intros Hm. unfold spec_raw_weight, spec_effective_num.
  rewrite pow_i by lia. field.
Qed.

(** X17.  With [beta_reweight] equal to 0 the frequencies do not
    matter: for positive frequencies every class gets the same weight,
    [num_classes] divided by the number of frequencies, which is 1 when
    there is one frequency per class. *)
Theorem reweight_beta_0_uniform (cf : list Z) (n : Z) :
  Forall (fun m => (0 < m)%Z) cf ->
  reweight 0 cf n
  = repeat (Fin (IZR n / INR (List.length cf))) (List.length cf)
  /\ (Z.of_nat (List.length cf) = n ->
      reweight 0 cf n = repeat (Fin 1) (List.length cf)).
Proof.
  intros Hpos.
  assert (Hw : reweight 0 cf n
               = repeat (Fin (IZR n / INR (List.length cf))) (List.length cf)).
  { rewrite reweight_positive by (try assumption; lra).
    unfold spec_weight.
    rewrite (map_const (spec_raw_weight 0) 1 cf).
    2:{ intros a Ha. apply spec_raw_weight_beta_0.
        rewrite Forall_forall in Hpos. now apply Hpos. }
    rewrite sumR_repeat_1, <- map_Fin_repeat. f_equal.
    apply map_const. intros a Ha.
    rewrite spec_raw_weight_beta_0
      by (rewrite Forall_forall in Hpos; now apply Hpos).
    assert (0 < INR (List.length cf)).
    { apply lt_0_INR. destruct cf; [destruct Ha | simpl; lia]. }
    field. lra. }
  split; [exact Hw |].
  intros Hlen. rewrite Hw. destruct cf as [| c cf']; [reflexivity |].
  f_equal. f_equal. rewrite <- Hlen, <- INR_IZR_INZ.
  assert (0 < INR (List.length (c :: cf'))) by (apply lt_0_INR; simpl; lia).
  field. lra.
Qed.

Lemma reweight_beta_0_uniform_witness :
  reweight 0 [10%Z; 100%Z] 2
  = repeat (Fin (IZR 2 / INR (List.length [10%Z; 100%Z])))
      (List.length [10%Z; 100%Z]).
Proof.
  apply (reweight_beta_0_uniform [10%Z; 100%Z] 2).
  repeat constructor; lia.
Defined.

Lemma forward_empty_batch_witness :
  forward (mkFocalLoss 1 None "meen") [] [] = inr (Vec []).
Proof.
  apply (proj2 (proj2 (forward_empty_batch 1 None)) "meen"); discriminate.
Defined.

